(** * ai-backend: job orchestration, access gate and provider adapters

    A shallow embedding of [server.js], [functions/rev.js] (class
    [Transcript]) and [functions/gemini.js] (class [Gemini]).

    - External services (Rev-AI, Gemini, the file system) are oracles
      supplied by the environment; every call to them returns an outcome.
    - JavaScript's cooperative scheduling is modelled by events: one event
      is one uninterrupted run of handler code, from one [await] to the
      next. Events may come in any order, which covers every interleaving
      the event loop can produce.
    - A job object is one record in a heap; the table [jobs] holds its key.
      A function that captured the object writes to the heap, a function
      that goes through [jobs[jobId]] needs the key.
    - Numbers are integers ([Z]); the code only adds and compares them. *)

From Stdlib Require Import ZArith String List Lia Bool.
From Equations Require Import Equations.
From stdpp Require Import gmap strings list fin_maps.

Open Scope Z_scope.
Open Scope string_scope.

(** ** JavaScript values the code tests for truthiness *)

(** [if (x)] on a value that is [null]/[undefined] or a string: the empty
    string is falsy. *)
Definition truthy_str (o : option string) : bool :=
  match o with
  | Some s => negb (String.eqb s "")
  | None => false
  end.

(** [a || b] on such values. *)
Definition or_str (a b : option string) : option string :=
  if truthy_str a then a else b.

(** A parsed JSON value, as [express.json()] hands it to a handler. *)
#[local] Unset Elimination Schemes.
Inductive json :=
| JNull
| JBool (b : bool)
| JNum (n : Z)
| JStr (s : string)
| JArr (items : list json)
| JObj (fields : list (string * json)).
#[local] Set Elimination Schemes.

Definition truthy (v : json) : bool :=
  match v with
  | JNull => false
  | JBool b => b
  | JNum n => negb (Z.eqb n 0)
  | JStr s => negb (String.eqb s "")
  | JArr _ | JObj _ => true
  end.

(** [Array.isArray(v) && v.length > 0] *)
Definition nonempty_array (v : json) : bool :=
  match v with
  | JArr (_ :: _) => true
  | _ => false
  end.

(** [o.k] on a parsed object: with a key given twice, [JSON.parse] keeps
    the last one. *)
Fixpoint field (k : string) (fields : list (string * json)) : option json :=
  match fields with
  | [] => None
  | (k', v) :: rest =>
      match field k rest with
      | Some w => Some w
      | None => if String.eqb k k' then Some v else None
      end
  end.

(** ** functions/rev.js: class Transcript *)

Module Transcript.

(** What [getJobDetails] answers. *)
Record JobDetails := {
  status : string;
  failure_detail : option string;
  failure : option string
}.

(** The Rev-AI SDK client. [None] is a call that rejects. The [nat] of
    [getJobDetails] is the number of the call, so that the provider may
    answer differently from poll to poll. *)
Record RevAiApiClient := {
  submitJobLocalFile : string -> option string;
  getJobDetails : string -> nat -> option JobDetails;
  getTranscriptText : string -> option string
}.

(** The errors [generate] throws. The two [new Error(...)] of the source
    are kept by their parts rather than by their rendered message. *)
Inductive error :=
| SdkError
| EndedWithStatus (jobid st reason : string)
| TimedOut (jobid : string) (timeoutS : Z).

Inductive outcome :=
| Resolved (text : string)
| Rejected (e : error).

(** One turn of the [while (true)] loop, as it can be observed: the timer
    it waited on, the counter after the increment, and what the provider
    answered. *)
Record tick := {
  slept_ms : Z;
  elapsed_after : Z;
  observed : option JobDetails
}.

Inductive loop_exit :=
| Break
| Throw (e : error).

Definition POLL_MS : Z := 7000.

(** The constructor's default for [timeoutS]. *)
Definition default_timeoutS : Z := 900.

(** [['failed', 'revoked', 'error'].includes(details.status)] *)
Definition hard_failure (st : string) : bool :=
  existsb (String.eqb st) ["failed"; "revoked"; "error"].

(** [details.failure_detail || details.failure || 'unknown reason'] *)
Definition reason (d : JobDetails) : string :=
  match or_str (or_str (failure_detail d) (failure d)) (Some "unknown reason") with
  | Some r => r
  | None => "unknown reason"
  end.

(** The two status tests of the loop body: [Some Break] on success,
    [Some (Throw _)] on a hard failure, [None] to go on to the timeout
    guard. *)
Definition status_exit (jobid : string) (d : JobDetails) : option loop_exit :=
  if String.eqb (status d) "transcribed" then Some Break
  else if hard_failure (status d)
       then Some (Throw (EndedWithStatus jobid (status d) (reason d)))
       else None.

Definition mk_tick (elapsed : Z) (o : option JobDetails) : tick :=
  {| slept_ms := POLL_MS; elapsed_after := elapsed + POLL_MS / 1000; observed := o |}.

Section Generate.
Variable client : RevAiApiClient.
Variable timeoutS : Z.
Variable jobid : string.

(** The polling loop. [n] counts the calls to [getJobDetails] made so far,
    [elapsed] is the loop's own counter. Each turn waits [POLL_MS], adds
    [POLL_MS / 1000] to the counter, asks the provider, and then tests, in
    this order: success, hard failure, timeout. *)
Equations? poll (n : nat) (elapsed : Z) : list tick * loop_exit
  by wf (Z.to_nat (timeoutS - elapsed)) lt :=
  poll n elapsed with getJobDetails client jobid n => {
    | None := ([mk_tick elapsed None], Throw SdkError);
    | Some d with status_exit jobid d => {
        | Some x := ([mk_tick elapsed (Some d)], x);
        | None with Z_gt_le_dec (elapsed + POLL_MS / 1000) timeoutS => {
            | left _ := ([mk_tick elapsed (Some d)], Throw (TimedOut jobid timeoutS));
            | right _ :=
                let r := poll (S n) (elapsed + POLL_MS / 1000) in
                (mk_tick elapsed (Some d) :: fst r, snd r) } } }.
Proof. change (POLL_MS / 1000) with 7 in *. lia. Qed.

End Generate.

(** [generate(filePath)]: the outcome and the turns of the loop. The calls
    of [this.log] are left out: they change nothing. *)
Definition generate (client : RevAiApiClient) (timeoutS : Z) (filePath : string)
  : outcome * list tick :=
  match submitJobLocalFile client filePath with
  | None => (Rejected SdkError, [])
  | Some jobid =>
      let r := poll client timeoutS jobid 0 0 in
      match snd r with
      | Throw e => (Rejected e, fst r)
      | Break =>
          match getTranscriptText client jobid with
          | Some t => (Resolved t, fst r)
          | None => (Rejected SdkError, fst r)
          end
      end
  end.

(** A provider status that ends the polling. *)
Definition terminal (st : string) : bool :=
  String.eqb st "transcribed" || hard_failure st.

(** At call [k] the provider answers, with a status that is not terminal. *)
Definition pending_at (client : RevAiApiClient) (jobid : string) (k : nat) : bool :=
  match getJobDetails client jobid k with
  | Some d => negb (terminal (status d))
  | None => false
  end.

(** With the counter at [elapsed], the number of further polls after which
    it first exceeds [timeoutS]. *)
Definition polls_left (timeoutS elapsed : Z) : nat :=
  Z.to_nat (Z.max 1 ((timeoutS - elapsed) / 7 + 1)).

(** The number of the poll at which the timeout guard fires: 129 for the
    default deadline. *)
Definition max_polls (timeoutS : Z) : nat := polls_left timeoutS 0.


End Transcript.

(** ** functions/gemini.js: class Gemini *)

Module Gemini.

(** What [getResponse] returns: [{ response, error }]. *)
Record Result := {
  response : option string;
  error : option string
}.

(** One call of [ai.models.generateContent] with one credential: it
    answers ([response.text] may be undefined) or throws. *)
Inductive attempt :=
| Generated (text : option string)
| Failed (message : string).

(** The pool of the constructor: six literal credentials, named here by
    their position. *)
Definition apiKeys : list string :=
  ["key 1"; "key 2"; "key 3"; "key 4"; "key 5"; "key 6"].

Record client := {
  keys : list string;
  transcript : option string;
  books : list (option json * string)
}.

(** The constructor throws ['No API keys provided'] on an empty pool
    ([None]). *)
Definition construct (pool : list string) (t : option string)
    (b : list (option json * string)) : option client :=
  if Nat.eqb (List.length pool) 0 then None
  else Some {| keys := pool; transcript := t; books := b |}.

(** The [for] loop of [getResponse] from index [i]; [n] is
    [this.apiKeys.length]. The second component collects the
    [console.warn] lines as (key number, message). Falling out of the loop
    returns [undefined] ([None]). *)
Fixpoint attempts (generateContent : string -> attempt) (rest : list string) (i n : nat)
  : option Result * list (nat * string) :=
  match rest with
  | [] => (None, [])
  | currentKey :: rest' =>
      match generateContent currentKey with
      | Generated text => (Some {| response := text; error := None |}, [])
      | Failed message =>
          if Nat.eqb i (n - 1)
          then (Some {| response := None;
                        error := Some ("Gemini API error: " ++ message) |},
                [(S i, message)])
          else let r := attempts generateContent rest' (S i) n in
               (fst r, (S i, message) :: snd r)
      end
  end.

Definition getResponse (c : client) (generateContent : string -> attempt)
  : option Result * list (nat * string) :=
  attempts generateContent (keys c) 0 (List.length (keys c)).

End Gemini.

(** ** server.js: the job table *)

(** The five string literals the code ever assigns to [job.status]. *)
Inductive Status :=
| Transcribing
| Transcribed
| AnalysisStarted
| Finished
| Errored.

Definition status_string (st : Status) : string :=
  match st with
  | Transcribing => "transcribing"
  | Transcribed => "transcribed"
  | AnalysisStarted => "analysis_started"
  | Finished => "finished"
  | Errored => "error"
  end.

(** The object literal of [app.post('/start')]. [None] is [null]. *)
Record Job := {
  id : string;
  status : Status;
  transcript : option string;
  analysis : option Gemini.Result;
  selectedBooks : json;
  filePath : option string;
  error : option string;
  accessToken : string
}.

Definition with_status (st : Status) (j : Job) : Job :=
  {| id := id j; status := st; transcript := transcript j; analysis := analysis j;
     selectedBooks := selectedBooks j; filePath := filePath j; error := error j;
     accessToken := accessToken j |}.

Definition with_transcript (t : option string) (j : Job) : Job :=
  {| id := id j; status := status j; transcript := t; analysis := analysis j;
     selectedBooks := selectedBooks j; filePath := filePath j; error := error j;
     accessToken := accessToken j |}.

Definition with_analysis (a : option Gemini.Result) (j : Job) : Job :=
  {| id := id j; status := status j; transcript := transcript j; analysis := a;
     selectedBooks := selectedBooks j; filePath := filePath j; error := error j;
     accessToken := accessToken j |}.

Definition with_selectedBooks (b : json) (j : Job) : Job :=
  {| id := id j; status := status j; transcript := transcript j; analysis := analysis j;
     selectedBooks := b; filePath := filePath j; error := error j;
     accessToken := accessToken j |}.

Definition with_filePath (p : option string) (j : Job) : Job :=
  {| id := id j; status := status j; transcript := transcript j; analysis := analysis j;
     selectedBooks := selectedBooks j; filePath := p; error := error j;
     accessToken := accessToken j |}.

Definition with_error (e : option string) (j : Job) : Job :=
  {| id := id j; status := status j; transcript := transcript j; analysis := analysis j;
     selectedBooks := selectedBooks j; filePath := filePath j; error := e;
     accessToken := accessToken j |}.

(** Where the [/start] handler of a job is suspended. *)
Inductive StartPc :=
| AtGenerate (path : string)       (* await transcriptClient.generate(...) *)
| AtTryStart (settled : bool)      (* await tryStartAnalysis(jobId); [settled]:
                                      the awaited promise is already resolved *)
| AtUnlink (path : string)         (* await fs.unlink(...) in [finally] *)
| Returned
| Faulted.                         (* the handler's promise is rejected *)

(** Where the one call of [getAnalysis] for a job is suspended. *)
Inductive AnalysisPc :=
| NotCalled
| AtReadFiles (books : list json)  (* await Promise.all(...readFile...) *)
| AtGetResponse (c : Gemini.client) (* await geminiClient.getResponse() *)
| Over.

Record Proc := {
  start : StartPc;
  analysis_pc : AnalysisPc
}.

Definition in_flight (a : AnalysisPc) : bool :=
  match a with
  | AtReadFiles _ | AtGetResponse _ => true
  | NotCalled | Over => false
  end.

(** What a response carries. *)
Inductive Body :=
| JobCreated (jobId accessToken : string)
| ErrorMessage (msg : string)
| PlainOK
| StatusReport (st : option string) (a : option Gemini.Result) (e : option string).

(** What the server does to the outside, and the writes to [job.status]. *)
Inductive Effect :=
| Respond (code : nat) (body : Body)
| CallGenerate (jobId path : string)
| CallGetAnalysis (jobId : string)
| CallGetResponse (jobId : string) (c : Gemini.client)
| SetStatus (jobId : string) (st : Status)
| Unhandled (jobId : string).

(** The server's state. A job object lives in [heap] under its id for as
    long as anything can refer to it; [keys] are the own keys of the table
    [jobs], so that [delete jobs[jobId]] removes the key and leaves the
    object to the suspended functions that captured it. [out] is the
    history of effects, newest first. *)
Record State := {
  keys : gset string;
  heap : gmap string Job;
  disk : gmap string string;
  procs : gmap string Proc;
  out : list Effect
}.

(** The server starts with an empty table, on a disk that holds whatever
    files the deployment has (the reference books among them). *)
Definition init (d : gmap string string) : State :=
  {| keys := ∅; heap := ∅; disk := d; procs := ∅; out := [] |}.

Definition emit (e : Effect) (s : State) : State :=
  {| keys := keys s; heap := heap s; disk := disk s; procs := procs s;
     out := e :: out s |}.

Definition upd_job (jobId : string) (f : Job -> Job) (s : State) : State :=
  {| keys := keys s; heap := alter f jobId (heap s); disk := disk s;
     procs := procs s; out := out s |}.

Definition upd_proc (jobId : string) (f : Proc -> Proc) (s : State) : State :=
  {| keys := keys s; heap := heap s; disk := disk s;
     procs := alter f jobId (procs s); out := out s |}.

Definition set_disk (d : gmap string string) (s : State) : State :=
  {| keys := keys s; heap := heap s; disk := d; procs := procs s; out := out s |}.

Definition set_start (jobId : string) (pc : StartPc) (s : State) : State :=
  upd_proc jobId (fun p => {| start := pc; analysis_pc := analysis_pc p |}) s.

Definition set_analysis_pc (jobId : string) (pc : AnalysisPc) (s : State) : State :=
  upd_proc jobId (fun p => {| start := start p; analysis_pc := pc |}) s.

(** [job.status = st] *)
Definition set_status (jobId : string) (st : Status) (s : State) : State :=
  emit (SetStatus jobId st) (upd_job jobId (with_status st) s).

(** The properties every object inherits from [Object.prototype]: [jobs]
    is the literal [{}], so [jobs[k]] finds them when [k] is no own key. *)
Definition object_prototype_keys : list string :=
  ["constructor"; "__proto__"; "hasOwnProperty"; "isPrototypeOf";
   "propertyIsEnumerable"; "toLocaleString"; "toString"; "valueOf";
   "__defineGetter__"; "__defineSetter__"; "__lookupGetter__"; "__lookupSetter__"].

Definition inherited (k : string) : bool :=
  existsb (String.eqb k) object_prototype_keys.

(** What [jobs[jobId]] evaluates to, when it is not [undefined]. *)
Inductive property :=
| Own (job : Job)
| Inherited (name : string).

(** [jobs[jobId]] *)
Definition jobs_lookup (s : State) (jobId : string) : option property :=
  match (if bool_decide (jobId ∈ keys s) then heap s !! jobId else None) with
  | Some job => Some (Own job)
  | None => if inherited jobId then Some (Inherited jobId) else None
  end.

(** ** Middleware for job authorization *)

Inductive gate :=
| NotFound                    (* 404 'Job not found' *)
| Forbidden                   (* 403 'Forbidden: Invalid access token' *)
| Next (target : property).   (* req.job = job; next() *)

(** [`Bearer ${job.accessToken}`]: an inherited property has no
    [accessToken], and the template renders [undefined]. *)
Definition bearer (p : property) : string :=
  match p with
  | Own job => "Bearer " ++ accessToken job
  | Inherited _ => "Bearer undefined"
  end.

Definition authorizeJob (s : State) (jobId : string) (authHeader : option string) : gate :=
  match jobs_lookup s jobId with
  | None => NotFound
  | Some job =>
      if negb (truthy_str authHeader)
         || negb (match authHeader with
                  | Some h => String.eqb h (bearer job)
                  | None => false
                  end)
      then Forbidden
      else Next job
  end.

(** ** Gemini analysis *)

(** The suspended functions of a job once [getAnalysis] has settled: the
    [/start] handler, if it awaits the analysis, may go on. *)
Definition settled (p : Proc) : Proc :=
  {| start := match start p with
              | AtTryStart false => AtTryStart true
              | pc => pc
              end;
     analysis_pc := Over |}.

Definition analysis_settles (jobId : string) (s : State) : State :=
  upd_proc jobId settled s.

(** The [catch] of [getAnalysis]. *)
Definition analysis_fails (jobId : string) (s : State) : State :=
  analysis_settles jobId
    (upd_job jobId (with_error (Some "An error occurred during AI analysis."))
       (set_status jobId Errored s)).

(** The three assignments after [await geminiClient.getResponse()]. *)
Definition analysis_finishes (jobId : string) (analysisJson : option Gemini.Result)
    (s : State) : State :=
  analysis_settles jobId
    (upd_job jobId (with_transcript None)
       (upd_job jobId (with_analysis analysisJson)
          (set_status jobId Finished s))).

(** One element of [job.selectedBooks.map(async (book) => ...)]:
    [book.title] throws on [null]; [fs.readFile(book.text, 'utf8')]
    rejects unless [book.text] is the path of an existing file. *)
Definition load_book (d : gmap string string) (book : json) : option (option json * string) :=
  match book with
  | JNull => None
  | JObj fields =>
      match field "text" fields with
      | Some (JStr path) =>
          match d !! path with
          | Some text => Some (field "title" fields, text)
          | None => None
          end
      | _ => None
      end
  | _ => None
  end.

(** [Promise.all] of them: rejects as soon as one does. *)
Fixpoint load_books (d : gmap string string) (books : list json)
  : option (list (option json * string)) :=
  match books with
  | [] => Some []
  | book :: rest =>
      match load_book d book, load_books d rest with
      | Some b, Some bs => Some (b :: bs)
      | _, _ => None
      end
  end.

(** [getAnalysis(jobId)] up to its first [await]. Its only caller has just
    found [jobs[jobId]] to be a job with an array of books; on anything
    else than an array [.map] throws inside the [try]. *)
Definition getAnalysis (jobId : string) (s : State) : State :=
  match jobs_lookup s jobId with
  | Some (Own job) =>
      let s1 := emit (CallGetAnalysis jobId) s in
      match selectedBooks job with
      | JArr books => set_analysis_pc jobId (AtReadFiles books) s1
      | _ => analysis_fails jobId s1
      end
  | _ => s
  end.

(** The guard of [tryStartAnalysis] on the status. *)
Definition already_started (st : Status) : bool :=
  String.prefix "analysis" (status_string st)
  || String.eqb (status_string st) "finished"
  || String.eqb (status_string st) "error".

(** [tryStartAnalysis(jobId)] up to the first [await] it reaches. The
    boolean tells that it threw: on an inherited property [job.status] is
    undefined and [.startsWith] is a TypeError. *)
Definition tryStartAnalysis (jobId : string) (s : State) : State * bool :=
  match jobs_lookup s jobId with
  | None => (s, false)
  | Some (Inherited _) => (s, true)
  | Some (Own job) =>
      if already_started (status job) then (s, false)
      else if truthy_str (transcript job) && nonempty_array (selectedBooks job)
           then (getAnalysis jobId (set_status jobId AnalysisStarted s), false)
           else (s, false)
  end.

(** The promise of [tryStartAnalysis(jobId)] is still pending. *)
Definition awaiting (jobId : string) (s : State) : bool :=
  match procs s !! jobId with
  | Some p => in_flight (analysis_pc p)
  | None => false
  end.

(** [Promise.all] has settled. *)
Definition read_settles (jobId : string) (s : State) : State :=
  match procs s !! jobId, heap s !! jobId with
  | Some p, Some job =>
      match analysis_pc p with
      | AtReadFiles books =>
          match load_books (disk s) books with
          | Some bookData =>
              match Gemini.construct Gemini.apiKeys (transcript job) bookData with
              | Some c =>
                  set_analysis_pc jobId (AtGetResponse c)
                    (emit (CallGetResponse jobId c) s)
              | None => analysis_fails jobId s
              end
          | None => analysis_fails jobId s
          end
      | _ => s
      end
  | _, _ => s
  end.

(** [getResponse] has settled; [generateContent] is how the provider
    answered each credential. *)
Definition response_settles (jobId : string) (generateContent : string -> Gemini.attempt)
    (s : State) : State :=
  match procs s !! jobId with
  | Some p =>
      match analysis_pc p with
      | AtGetResponse c =>
          analysis_finishes jobId (fst (Gemini.getResponse c generateContent)) s
      | _ => s
      end
  | None => s
  end.

(** ** Routes *)

(** The [catch] of [app.post('/start')]. *)
Definition start_catch (jobId : string) (s : State) : State :=
  match jobs_lookup s jobId with
  | Some (Own _) =>
      upd_job jobId (with_error (Some "Transcription failed."))
        (set_status jobId Errored s)
  | _ => s
  end.

(** Its [finally], up to [await fs.unlink(...)]. *)
Definition start_finally (jobId : string) (s : State) : State :=
  match jobs_lookup s jobId with
  | Some (Own job) =>
      match filePath job with
      | Some path =>
          if truthy_str (Some path) then set_start jobId (AtUnlink path) s
          else set_start jobId Returned s
      | None => set_start jobId Returned s
      end
  | _ => set_start jobId Returned s
  end.

(** [uuidv4()] returns an identifier that was never used and that is no
    property name of [Object.prototype]. *)
Definition fresh (s : State) (jobId : string) : bool :=
  match heap s !! jobId, procs s !! jobId with
  | None, None => negb (inherited jobId) && negb (bool_decide (jobId ∈ keys s))
  | _, _ => false
  end.

(** [app.post('/start')] up to [await transcriptClient.generate(...)].
    [file] is [req.file] as multer leaves it: the upload is on disk at
    [path]. *)
Definition post_start (jobId token : string) (file : option (string * string))
    (s : State) : State :=
  match file with
  | None => emit (Respond 400 (ErrorMessage "No file was uploaded or file was empty.")) s
  | Some (path, content) =>
      if fresh s jobId then
        let job := {| id := jobId; status := Transcribing; transcript := None;
                      analysis := None; selectedBooks := JArr []; filePath := Some path;
                      error := None; accessToken := token |} in
        {| keys := {[jobId]} ∪ keys s;
           heap := <[jobId := job]> (heap s);
           disk := <[path := content]> (disk s);
           procs := <[jobId := {| start := AtGenerate path; analysis_pc := NotCalled |}]>
                      (procs s);
           out := CallGenerate jobId path
                  :: Respond 202 (JobCreated jobId token)
                  :: SetStatus jobId Transcribing
                  :: out s |}
      else s
  end.

(** [transcriptClient.generate(...)] has settled: the rest of the [try],
    or the [catch] and the [finally]. The server builds the client with
    [new Transcript()], so the deadline is the default one. *)
Definition generate_settles (jobId : string) (client : Transcript.RevAiApiClient)
    (s : State) : State :=
  match procs s !! jobId with
  | Some p =>
      match start p with
      | AtGenerate path =>
          match fst (Transcript.generate client Transcript.default_timeoutS path) with
          | Transcript.Resolved transcriptText =>
              match jobs_lookup s jobId with
              | Some (Own _) =>
                  let s1 := set_status jobId Transcribed
                              (upd_job jobId (with_transcript (Some transcriptText)) s) in
                  let r := tryStartAnalysis jobId s1 in
                  if snd r then start_finally jobId (start_catch jobId (fst r))
                  else set_start jobId (AtTryStart (negb (awaiting jobId (fst r)))) (fst r)
              | _ =>
                  (* evicted meanwhile: [jobs[jobId].transcript = ...] is a
                     TypeError (an id of [uuidv4] names no inherited property) *)
                  start_finally jobId (start_catch jobId s)
              end
          | Transcript.Rejected _ => start_finally jobId (start_catch jobId s)
          end
      | _ => s
      end
  | None => s
  end.

(** [await tryStartAnalysis(jobId)] of [/start] resumes: the [finally]. *)
Definition start_resumes (jobId : string) (s : State) : State :=
  match procs s !! jobId with
  | Some p =>
      match start p with
      | AtTryStart true => start_finally jobId s
      | _ => s
      end
  | None => s
  end.

(** [fs.unlink(path)]: rejects when there is no such file. *)
Definition unlink (path : string) (d : gmap string string) : option (gmap string string) :=
  match d !! path with
  | Some _ => Some (delete path d)
  | None => None
  end.

(** [await fs.unlink(...)] of the [finally] has settled. Nothing catches
    its rejection, nor the TypeError of [jobs[jobId].filePath = null] on
    an evicted job. *)
Definition unlink_settles (jobId : string) (s : State) : State :=
  match procs s !! jobId with
  | Some p =>
      match start p with
      | AtUnlink path =>
          match unlink path (disk s) with
          | Some d =>
              match jobs_lookup s jobId with
              | Some (Own _) =>
                  set_start jobId Returned
                    (upd_job jobId (with_filePath None) (set_disk d s))
              | Some (Inherited _) => set_start jobId Returned (set_disk d s)
              | None => emit (Unhandled jobId) (set_start jobId Faulted (set_disk d s))
              end
          | None => emit (Unhandled jobId) (set_start jobId Faulted s)
          end
      | _ => s
      end
  | None => s
  end.

(** [req.body.selectedBooks || []] *)
Definition selected_or_empty (selectedBooks : option json) : json :=
  match selectedBooks with
  | Some v => if truthy v then v else JArr []
  | None => JArr []
  end.

(** [app.post('/booksselection/:jobId')]. The handler ends after
    [await tryStartAnalysis(jobId)]; what that call throws is a rejection
    of the handler. *)
Definition post_booksselection (jobId : string) (authHeader : option string)
    (selectedBooks : option json) (s : State) : State :=
  match authorizeJob s jobId authHeader with
  | NotFound => emit (Respond 404 (ErrorMessage "Job not found")) s
  | Forbidden => emit (Respond 403 (ErrorMessage "Forbidden: Invalid access token")) s
  | Next (Own _) =>
      let s1 := upd_job jobId (with_selectedBooks (selected_or_empty selectedBooks)) s in
      let r := tryStartAnalysis jobId (emit (Respond 200 PlainOK) s1) in
      if snd r then emit (Unhandled jobId) (fst r) else fst r
  | Next (Inherited _) =>
      let r := tryStartAnalysis jobId (emit (Respond 200 PlainOK) s) in
      if snd r then emit (Unhandled jobId) (fst r) else fst r
  end.

(** [app.get('/status/:jobId')] *)
Definition get_status (jobId : string) (authHeader : option string) (s : State) : State :=
  match authorizeJob s jobId authHeader with
  | NotFound => emit (Respond 404 (ErrorMessage "Job not found")) s
  | Forbidden => emit (Respond 403 (ErrorMessage "Forbidden: Invalid access token")) s
  | Next (Own job) =>
      emit (Respond 200 (StatusReport (Some (status_string (status job)))
                           (analysis job) (error job))) s
  | Next (Inherited _) => emit (Respond 200 (StatusReport None None None)) s
  end.

(** The callback of [setTimeout(..., JOB_TTL_MS)], registered for every
    job that was created. Its [fs.unlink] is not awaited; when it rejects,
    the [.catch] callback reads [jobs[jobId].filePath] after the key is
    deleted, and throws. *)
Definition expire (jobId : string) (s : State) : State :=
  match procs s !! jobId with
  | Some _ =>
      match jobs_lookup s jobId with
      | Some (Own job) =>
          let s1 := if truthy_str (filePath job)
                    then match filePath job with
                         | Some path =>
                             match unlink path (disk s) with
                             | Some d => set_disk d s
                             | None => emit (Unhandled jobId) s
                             end
                         | None => s
                         end
                    else s in
          {| keys := keys s1 ∖ {[jobId]}; heap := heap s1; disk := disk s1;
             procs := procs s1; out := out s1 |}
      | _ => s
      end
  | None => s
  end.

(** ** The event loop *)

Inductive Event :=
| PostStart (jobId token : string) (file : option (string * string))
| GenerateSettles (jobId : string) (client : Transcript.RevAiApiClient)
| StartResumes (jobId : string)
| UnlinkSettles (jobId : string)
| ReadSettles (jobId : string)
| ResponseSettles (jobId : string) (generateContent : string -> Gemini.attempt)
| PostBooksSelection (jobId : string) (authHeader : option string)
    (selectedBooks : option json)
| GetStatus (jobId : string) (authHeader : option string)
| Expire (jobId : string)
| DiskRemoved (path : string).   (* somebody else removes a file *)

Definition step (s : State) (e : Event) : State :=
  match e with
  | PostStart jobId token file => post_start jobId token file s
  | GenerateSettles jobId client => generate_settles jobId client s
  | StartResumes jobId => start_resumes jobId s
  | UnlinkSettles jobId => unlink_settles jobId s
  | ReadSettles jobId => read_settles jobId s
  | ResponseSettles jobId g => response_settles jobId g s
  | PostBooksSelection jobId h b => post_booksselection jobId h b s
  | GetStatus jobId h => get_status jobId h s
  | Expire jobId => expire jobId s
  | DiskRemoved path => set_disk (delete path (disk s)) s
  end.

Definition run (s : State) (es : list Event) : State := fold_left step es s.

Inductive reachable : State -> Prop :=
| reachable_init d : reachable (init d)
| reachable_step s e : reachable s -> reachable (step s e).

(** ** Reading the history of effects *)

(** The statuses written to a job, newest first. *)
Fixpoint status_history (jobId : string) (log : list Effect) : list Status :=
  match log with
  | [] => []
  | SetStatus j st :: rest =>
      if String.eqb j jobId then st :: status_history jobId rest
      else status_history jobId rest
  | _ :: rest => status_history jobId rest
  end.

(** How often the analysis stage began for a job. *)
Fixpoint analysis_begins (jobId : string) (log : list Effect) : nat :=
  match log with
  | [] => 0
  | CallGetAnalysis j :: rest =>
      if String.eqb j jobId then S (analysis_begins jobId rest)
      else analysis_begins jobId rest
  | _ :: rest => analysis_begins jobId rest
  end.

(** How often an adapter was called for a job: [Transcript.generate] or
    [Gemini.getResponse]. *)
Fixpoint adapter_calls (jobId : string) (log : list Effect) : nat :=
  match log with
  | [] => 0
  | CallGenerate j _ :: rest | CallGetResponse j _ :: rest =>
      if String.eqb j jobId then S (adapter_calls jobId rest)
      else adapter_calls jobId rest
  | _ :: rest => adapter_calls jobId rest
  end.

(** The responses sent, newest first. *)
Fixpoint responses (log : list Effect) : list (nat * Body) :=
  match log with
  | [] => []
  | Respond code body :: rest => (code, body) :: responses rest
  | _ :: rest => responses rest
  end.

(** The status lattice of the code. *)
Definition edge (a b : Status) : bool :=
  match a, b with
  | Transcribing, Transcribed
  | Transcribing, Errored
  | Transcribed, AnalysisStarted
  | Transcribed, Errored
  | AnalysisStarted, Finished
  | AnalysisStarted, Errored => true
  | _, _ => false
  end.

(** The position of a status in the lattice. *)
Definition rank (st : Status) : nat :=
  match st with
  | Transcribing => 0
  | Transcribed => 1
  | AnalysisStarted => 2
  | Finished => 3
  | Errored => 4
  end.

(** A history (newest first) that starts at [Transcribing] and only moves
    along edges. *)
Fixpoint forward (h : list Status) : bool :=
  match h with
  | [] => true
  | b :: rest =>
      match rest with
      | [] => match b with Transcribing => true | _ => false end
      | a :: _ => edge a b && forward rest
      end
  end.

(** ** What holds of every job, between events *)

Definition not_at_generate (pc : StartPc) : Prop :=
  match pc with
  | AtGenerate _ => False
  | _ => True
  end.

(** How the fields of a job object and the suspended functions of the job
    go together. [live]: the id is still a key of [jobs]. *)
Definition consistent (live : bool) (j : Job) (p : Proc) : Prop :=
  match status j with
  | Transcribing =>
      transcript j = None /\ analysis j = None /\ analysis_pc p = NotCalled /\
      (live = true -> exists path, start p = AtGenerate path)
  | Transcribed =>
      (exists t, transcript j = Some t) /\ analysis j = None /\
      analysis_pc p = NotCalled /\ not_at_generate (start p) /\
      truthy_str (transcript j) && nonempty_array (selectedBooks j) = false
  | AnalysisStarted =>
      truthy_str (transcript j) = true /\ analysis j = None /\
      in_flight (analysis_pc p) = true /\ not_at_generate (start p) /\
      match analysis_pc p with
      | AtGetResponse c => Gemini.keys c <> []
      | _ => True
      end
  | Finished =>
      transcript j = None /\ analysis j <> None /\
      analysis_pc p = Over /\ not_at_generate (start p)
  | Errored =>
      analysis j = None /\ not_at_generate (start p) /\
      ((transcript j = None /\ analysis_pc p = NotCalled) \/ analysis_pc p = Over)
  end.

(** Where the [finally] of [/start] leaves the handler. *)
Definition after_finally (j : option Job) (live : bool) : StartPc :=
  match j, live with
  | Some job, true =>
      match filePath job with
      | Some path => if truthy_str (Some path) then AtUnlink path else Returned
      | None => Returned
      end
  | _, _ => Returned
  end.

(** Both inputs of the analysis are there, as [tryStartAnalysis] tests
    them. *)
Definition ready (j : Job) : bool :=
  truthy_str (transcript j) && nonempty_array (selectedBooks j).

(** All that the state holds about one job id. *)
Definition view (s : State) (jobId : string)
  : option Job * option Proc * bool * list Status * nat :=
  (heap s !! jobId, procs s !! jobId, bool_decide (jobId ∈ keys s),
   status_history jobId (out s), analysis_begins jobId (out s)).

Definition view_ok (v : option Job * option Proc * bool * list Status * nat) : Prop :=
  match v with
  | (Some j, Some p, live, hist, begun) =>
      consistent live j p /\
      (exists older, hist = status j :: older) /\ forward hist = true /\
      begun = match analysis_pc p with NotCalled => 0 | _ => 1 end%nat
  | (None, None, live, hist, begun) => live = false /\ hist = [] /\ begun = 0%nat
  | _ => False
  end.

Definition Inv (s : State) : Prop := forall jobId, view_ok (view s jobId).

(** From one view of a job to the next, the analysis stage either does not
    begin, or begins for the first time on a job that is ready. *)
Definition begins_ok (v v' : option Job * option Proc * bool * list Status * nat) : Prop :=
  v'.2 = v.2 \/
  (v.2 = 0%nat /\ v'.2 = 1%nat /\
   exists j', v'.1.1.1.1 = Some j' /\ ready j' = true /\ status j' = AnalysisStarted).

(** ** Scenarios *)

(** A reference book of the deployment, and the selection that names it. *)
Definition library : gmap string string := {["books/x.txt" := "the text of Book X"]}.

Definition book_x : json :=
  JObj [("title", JStr "Book X"); ("text", JStr "books/x.txt")].

(** A provider that has the transcript [text] at the first poll. *)
Definition ready_client (text : string) : Transcript.RevAiApiClient :=
  {| Transcript.submitJobLocalFile := fun _ => Some "rev-1";
     Transcript.getJobDetails := fun _ _ =>
       Some {| Transcript.status := "transcribed";
               Transcript.failure_detail := None;
               Transcript.failure := None |};
     Transcript.getTranscriptText := fun _ => Some text |}.

(** A provider that reports [failed] at the first poll. *)
Definition failing_client : Transcript.RevAiApiClient :=
  {| Transcript.submitJobLocalFile := fun _ => Some "rev-1";
     Transcript.getJobDetails := fun _ _ =>
       Some {| Transcript.status := "failed";
               Transcript.failure_detail := Some "bad audio";
               Transcript.failure := None |};
     Transcript.getTranscriptText := fun _ => None |}.

(** A provider that never finishes: every poll answers [in_progress]. *)
Definition never_ready : Transcript.RevAiApiClient :=
  {| Transcript.submitJobLocalFile := fun _ => Some "rev-1";
     Transcript.getJobDetails := fun _ _ =>
       Some {| Transcript.status := "in_progress";
               Transcript.failure_detail := None;
               Transcript.failure := None |};
     Transcript.getTranscriptText := fun _ => Some "never read" |}.

(** One upload was accepted. *)
Definition uploaded : State :=
  step (init library) (PostStart "job-1" "secret" (Some ("uploads/a", "audio"))).

(** The job of [uploaded], as [/start] stores it. *)
Definition job_1 : Job :=
  {| id := "job-1"; status := Transcribing; transcript := None; analysis := None;
     selectedBooks := JArr []; filePath := Some "uploads/a"; error := None;
     accessToken := "secret" |}.

(** A selection of one book arrives, with the right token. *)
Definition select_book_x : Event :=
  PostBooksSelection "job-1" (Some "Bearer secret") (Some (JArr [book_x])).

(** Upload, selection, transcript ["hello"]: the analysis is under way. *)
Definition analysing : State :=
  run uploaded [select_book_x; GenerateSettles "job-1" (ready_client "hello")].

Definition job_1_analysing : Job :=
  {| id := "job-1"; status := AnalysisStarted; transcript := Some "hello";
     analysis := None; selectedBooks := JArr [book_x]; filePath := Some "uploads/a";
     error := None; accessToken := "secret" |}.

(** The books are read, and every credential of the pool fails. *)
Definition exhausted : State :=
  run analysing
    [ReadSettles "job-1";
     ResponseSettles "job-1" (fun _ => Gemini.Failed "quota exceeded")].

(** The books are read, and the first credential answers. *)
Definition analysed : State :=
  run analysing
    [ReadSettles "job-1";
     ResponseSettles "job-1" (fun _ => Gemini.Generated (Some "{ the report }"))].

Definition job_1_analysed : Job :=
  {| id := "job-1"; status := Finished; transcript := None;
     analysis := Some {| Gemini.response := Some "{ the report }";
                         Gemini.error := None |};
     selectedBooks := JArr [book_x]; filePath := Some "uploads/a";
     error := None; accessToken := "secret" |}.

(** Upload, then the provider reports [failed]. *)
Definition failed : State :=
  run uploaded [GenerateSettles "job-1" failing_client].

Definition job_1_failed : Job :=
  {| id := "job-1"; status := Errored; transcript := None; analysis := None;
     selectedBooks := JArr []; filePath := Some "uploads/a";
     error := Some "Transcription failed."; accessToken := "secret" |}.

(** Upload, selection, and a provider that hears nothing: the transcript
    is the empty string. *)
Definition silent : State :=
  run uploaded [select_book_x; GenerateSettles "job-1" (ready_client "")].

(** The upload is removed from the disk by somebody else; transcription
    then succeeds, and the [finally] of [/start] runs. *)
Definition cleanup_after_success : State :=
  run uploaded
    [DiskRemoved "uploads/a"; GenerateSettles "job-1" (ready_client "hello");
     StartResumes "job-1"; UnlinkSettles "job-1"].

(** The same, with a transcription that fails. *)
Definition cleanup_after_failure : State :=
  run uploaded
    [DiskRemoved "uploads/a"; GenerateSettles "job-1" failing_client;
     UnlinkSettles "job-1"].

(** ** More of functions/rev.js and functions/gemini.js *)

(** What one call of [getJobDetails] does to the loop of
    [Transcript.generate]: a call that rejects ([o] is [None]) throws, an
    answer breaks or throws by its status; the result [None] lets the loop
    go on to the timeout guard. *)
Definition poll_exit_at (jobid : string) (o : option Transcript.JobDetails)
  : option Transcript.loop_exit :=
  match o with
  | None => Some (Transcript.Throw Transcript.SdkError)
  | Some d => Transcript.status_exit jobid d
  end.

(** [`${x}`] on an array of objects: [Array.prototype.toString] joins the
    elements with commas, and a plain object renders as
    ["[object Object]"]. *)
Fixpoint render_objects {A : Type} (l : list A) : string :=
  match l with
  | [] => ""
  | [_] => "[object Object]"
  | _ :: rest => "[object Object]," ++ render_objects rest
  end.

(** [`${transcript}`]: [null] renders as ["null"]. *)
Definition render_transcript (t : option string) : string :=
  match t with
  | Some text => text
  | None => "null"
  end.

Section Prompt.
(** The three fixed pieces of the template literal of the constructor:
    the instructions up to the transcript, the text between the transcript
    and the books, and the closing lines. *)
Variables instructions between closing : string.

(** [this.input] *)
Definition input (c : Gemini.client) : string :=
  instructions ++ render_transcript (Gemini.transcript c)
  ++ between ++ render_objects (Gemini.books c) ++ closing.
End Prompt.

(** A provider that answers [in_progress] to the first [k] polls and
    [last] from then on. *)
Definition client_after (k : nat) (last : Transcript.JobDetails) (text : option string)
  : Transcript.RevAiApiClient :=
  {| Transcript.submitJobLocalFile := fun _ => Some "rev-1";
     Transcript.getJobDetails := fun _ i =>
       if Nat.ltb i k
       then Some {| Transcript.status := "in_progress";
                    Transcript.failure_detail := None;
                    Transcript.failure := None |}
       else Some last;
     Transcript.getTranscriptText := fun _ => text |}.

Definition details_transcribed : Transcript.JobDetails :=
  {| Transcript.status := "transcribed"; Transcript.failure_detail := None;
     Transcript.failure := None |}.

Definition details_revoked : Transcript.JobDetails :=
  {| Transcript.status := "revoked"; Transcript.failure_detail := Some "";
     Transcript.failure := Some "quota" |}.

(** The two messages the code ever assigns to [job.error]. *)
Definition error_messages : list string :=
  ["Transcription failed."; "An error occurred during AI analysis."].

(** What may have happened to a job object between two moments: the id and
    the token stay, the file reference is kept or cleared. *)
Definition evolves (j j' : Job) : Prop :=
  id j' = id j /\ accessToken j' = accessToken j /\
  (filePath j' = filePath j \/ filePath j' = None).


(** What one event may do to the error of a job: nothing, unless it puts
    the job in error with one of the two messages. *)
Definition error_step (j j' : Job) : Prop :=
  (error j' = error j /\ (status j' = Errored -> status j = Errored)) \/
  (status j' = Errored /\ exists m, error j' = Some m /\ In m error_messages).

(** ** server.js: the upload middleware of [/start] *)








(** ** Counting the calls of the providers *)





(** * Properties *)

(** ** The polling loop of [Transcript.generate] *)

Section PollFacts.
Import Transcript.
Variable client : RevAiApiClient.
Variable timeoutS : Z.
Variable jobid : string.

Lemma status_exit_none d :
  status_exit jobid d = None <-> terminal (status d) = false.
Proof.
  unfold status_exit, terminal.
  destruct (String.eqb (status d) "transcribed"); simpl; [split; discriminate|].
  destruct (hard_failure (status d)); split; congruence.
Qed.

Lemma pending_at_spec k :
  pending_at client jobid k = true <->
  exists d, getJobDetails client jobid k = Some d /\ status_exit jobid d = None.
Proof.
  unfold pending_at. destruct (getJobDetails client jobid k) as [d|].
  - rewrite negb_true_iff. split.
    + intros H. exists d. split; [reflexivity|]. now apply status_exit_none.
    + intros (d' & [= <-] & H). now apply status_exit_none.
  - split; [discriminate|]. intros (d & [=] & _).
Qed.


Lemma polls_left_stop elapsed :
  elapsed + 7 > timeoutS -> polls_left timeoutS elapsed = 1%nat.
Proof. unfold polls_left. intros H. Z.div_mod_to_equations. lia. Qed.

Lemma polls_left_go elapsed :
  elapsed + 7 <= timeoutS ->
  polls_left timeoutS elapsed = S (polls_left timeoutS (elapsed + 7)).
Proof. unfold polls_left. intros H. Z.div_mod_to_equations. lia. Qed.





End PollFacts.

(** ** The server: how each primitive changes the view of a job *)

(** Effects and writes that do not concern the table entry of [b]. *)
Lemma view_emit_respond code body s b :
  view (emit (Respond code body) s) b = view s b.
Proof. reflexivity. Qed.

Lemma view_emit_unhandled a s b :
  view (emit (Unhandled a) s) b = view s b.
Proof. reflexivity. Qed.

Lemma view_set_disk d s b : view (set_disk d s) b = view s b.
Proof. reflexivity. Qed.

Lemma view_upd_job_ne a f s b : a <> b -> view (upd_job a f s) b = view s b.
Proof. intros H. unfold view, upd_job; simpl. now rewrite lookup_alter_ne. Qed.

Lemma view_upd_proc_ne a f s b : a <> b -> view (upd_proc a f s) b = view s b.
Proof. intros H. unfold view, upd_proc; simpl. now rewrite lookup_alter_ne. Qed.

Lemma eqb_ne a b : a <> b -> String.eqb a b = false.
Proof. intros H. now apply String.eqb_neq. Qed.

Lemma view_set_status_ne a st s b : a <> b -> view (set_status a st s) b = view s b.
Proof.
  intros H. unfold set_status, view, emit, upd_job; simpl.
  rewrite (eqb_ne a b H). now rewrite lookup_alter_ne.
Qed.

Lemma view_emit_begin_ne a s b : a <> b -> view (emit (CallGetAnalysis a) s) b = view s b.
Proof. intros H. unfold view, emit; simpl. now rewrite (eqb_ne a b H). Qed.

Lemma view_emit_response_ne a c s b :
  view (emit (CallGetResponse a c) s) b = view s b.
Proof. reflexivity. Qed.

#[local] Set Warnings "-clear-no-such-hyp".

Ltac unfold_handlers :=
  unfold post_start, generate_settles, start_resumes, unlink_settles, read_settles,
    response_settles, post_booksselection, get_status, expire,
    start_finally, start_catch, tryStartAnalysis, getAnalysis, analysis_finishes,
    analysis_fails, analysis_settles, set_start, set_analysis_pc, authorizeJob in *.

Ltac frame_rewrite :=
  repeat first
    [ rewrite view_upd_proc_ne by assumption
    | rewrite view_upd_job_ne by assumption
    | rewrite view_set_status_ne by assumption
    | rewrite view_emit_begin_ne by assumption
    | rewrite view_emit_response_ne
    | rewrite view_emit_respond
    | rewrite view_emit_unhandled
    | rewrite view_set_disk ].

Ltac frame := unfold_handlers; repeat case_match; simpl; frame_rewrite; try reflexivity.

Lemma view_expire_keys s a b :
  a <> b ->
  view {| keys := keys s ∖ {[a]}; heap := heap s; disk := disk s;
          procs := procs s; out := out s |} b = view s b.
Proof.
  intros H. unfold view; simpl. f_equal. f_equal. f_equal.
  apply bool_decide_ext. set_solver.
Qed.

Lemma view_post_start_ne s a b j p d o :
  a <> b ->
  view {| keys := {[a]} ∪ keys s; heap := <[a := j]> (heap s); disk := d;
          procs := <[a := p]> (procs s); out := o |} b =
  (heap s !! b, procs s !! b, bool_decide (b ∈ keys s),
   status_history b o, analysis_begins b o).
Proof.
  intros H. unfold view; simpl. rewrite !lookup_insert_ne by assumption.
  f_equal. f_equal. f_equal. apply bool_decide_ext. set_solver.
Qed.

(** An event about one job leaves every other job as it is. *)
Lemma frame_generate a client s b :
  a <> b -> view (generate_settles a client s) b = view s b.
Proof. intros H. frame. Qed.

Lemma frame_start_resumes a s b : a <> b -> view (start_resumes a s) b = view s b.
Proof. intros H. frame. Qed.

Lemma frame_unlink_settles a s b : a <> b -> view (unlink_settles a s) b = view s b.
Proof. intros H. frame. Qed.

Lemma frame_read_settles a s b : a <> b -> view (read_settles a s) b = view s b.
Proof. intros H. frame. Qed.

Lemma frame_response_settles a g s b :
  a <> b -> view (response_settles a g s) b = view s b.
Proof. intros H. frame. Qed.

Lemma frame_post_booksselection a h v s b :
  a <> b -> view (post_booksselection a h v s) b = view s b.
Proof. intros H. frame. Qed.

Lemma frame_get_status a h s b : view (get_status a h s) b = view s b.
Proof. frame. Qed.

Lemma frame_expire a s b : a <> b -> view (expire a s) b = view s b.
Proof.
  intros H. unfold expire.
  destruct (procs s !! a); [|reflexivity].
  destruct (jobs_lookup s a) as [[job|name]|]; try reflexivity.
  rewrite view_expire_keys by assumption.
  destruct (truthy_str (filePath job)); [|reflexivity].
  destruct (filePath job) as [path|]; [|reflexivity].
  destruct (unlink path (disk s)); reflexivity.
Qed.

Lemma frame_post_start a tok file s b :
  a <> b -> view (post_start a tok file s) b = view s b.
Proof.
  intros H. unfold post_start.
  destruct file as [[path content]|]; [|reflexivity].
  destruct (fresh s a); [|reflexivity].
  rewrite view_post_start_ne by assumption. simpl.
  now rewrite (eqb_ne a b H).
Qed.

(** ** The credential loop of [Gemini.getResponse] *)

Lemma attempts_returns g rest i n :
  rest <> [] -> (i + length rest = n)%nat ->
  fst (Gemini.attempts g rest i n) <> None.
Proof.
  revert i. induction rest as [|k rest IH]; intros i Hne Hlen; [congruence|].
  simpl. destruct (g k) as [text|message]; simpl; [discriminate|].
  destruct (Nat.eqb i (n - 1)) eqn:E; simpl; [discriminate|].
  apply Nat.eqb_neq in E. apply IH.
  - destruct rest; [simpl in Hlen; lia | discriminate].
  - simpl in Hlen. lia.
Qed.

(** With a pool that is not empty, [getResponse] returns an object. *)
Lemma getResponse_returns c g :
  Gemini.keys c <> [] -> fst (Gemini.getResponse c g) <> None.
Proof. intros H. unfold Gemini.getResponse. now apply attempts_returns. Qed.

(** ** The invariant is kept by every event *)

(** *** Reading a state through the view of one job *)

Arguments view : simpl never.
Arguments view_ok : simpl never.
Arguments Transcript.generate : simpl never.

Lemma heap_view s a : heap s !! a = (view s a).1.1.1.1.
Proof. reflexivity. Qed.

Lemma procs_view s a : procs s !! a = (view s a).1.1.1.2.
Proof. reflexivity. Qed.

Lemma jobs_lookup_view s a :
  jobs_lookup s a =
  match (view s a).1.1.1.1, (view s a).1.1.2 with
  | Some j, true => Some (Own j)
  | _, _ => if inherited a then Some (Inherited a) else None
  end.
Proof.
  unfold jobs_lookup, view; simpl.
  destruct (bool_decide (a ∈ keys s)), (heap s !! a); reflexivity.
Qed.

Lemma awaiting_view s a :
  awaiting a s = match (view s a).1.1.1.2 with
                 | Some p => in_flight (analysis_pc p)
                 | None => false
                 end.
Proof. reflexivity. Qed.

Lemma view_upd_job a f s :
  view (upd_job a f s) a =
  (f <$> (view s a).1.1.1.1, (view s a).1.1.1.2, (view s a).1.1.2,
   (view s a).1.2, (view s a).2).
Proof. unfold view, upd_job; simpl. now rewrite lookup_alter_eq. Qed.

Lemma view_upd_proc a f s :
  view (upd_proc a f s) a =
  ((view s a).1.1.1.1, f <$> (view s a).1.1.1.2, (view s a).1.1.2,
   (view s a).1.2, (view s a).2).
Proof. unfold view, upd_proc; simpl. now rewrite lookup_alter_eq. Qed.

Lemma view_set_status a st s :
  view (set_status a st s) a =
  (with_status st <$> (view s a).1.1.1.1, (view s a).1.1.1.2, (view s a).1.1.2,
   st :: (view s a).1.2, (view s a).2).
Proof.
  unfold view, set_status, emit, upd_job; simpl.
  now rewrite lookup_alter_eq, String.eqb_refl.
Qed.

Lemma view_emit_begin a s :
  view (emit (CallGetAnalysis a) s) a =
  ((view s a).1.1.1.1, (view s a).1.1.1.2, (view s a).1.1.2,
   (view s a).1.2, S (view s a).2).
Proof. unfold view, emit; simpl. now rewrite String.eqb_refl. Qed.

Lemma view_emit_response a c s :
  view (emit (CallGetResponse a c) s) a = view s a.
Proof. reflexivity. Qed.

Create Rewrite HintDb views.
#[local] Hint Rewrite view_upd_job view_upd_proc view_set_status view_emit_begin
  view_emit_response view_emit_respond view_emit_unhandled view_set_disk : views.

Lemma tryStartAnalysis_view s a j p hist n :
  view s a = (Some j, Some p, true, hist, n) ->
  (tryStartAnalysis a s).2 = false /\
  view (tryStartAnalysis a s).1 a =
    if already_started (status j) then (Some j, Some p, true, hist, n)
    else if truthy_str (transcript j) && nonempty_array (selectedBooks j)
         then match selectedBooks j with
              | JArr books =>
                  (Some (with_status AnalysisStarted j),
                   Some {| start := start p; analysis_pc := AtReadFiles books |},
                   true, AnalysisStarted :: hist, S n)
              | _ => (Some j, Some p, true, hist, n)
              end
         else (Some j, Some p, true, hist, n).
Proof.
  intros Hv. unfold tryStartAnalysis. rewrite jobs_lookup_view, Hv. simpl.
  destruct (already_started (status j)); [now split|].
  destruct (truthy_str (transcript j) && nonempty_array (selectedBooks j)) eqn:E;
    [|now split].
  split; [reflexivity|]. simpl.
  unfold getAnalysis. rewrite jobs_lookup_view. autorewrite with views. rewrite Hv. simpl.
  apply andb_prop in E as [_ E]. destruct (selectedBooks j) as [| | | |[|x l]|]; try discriminate.
  unfold set_analysis_pc. autorewrite with views. rewrite Hv. reflexivity.
Qed.

Ltac same_or_other a b HI lem :=
  destruct (decide (a = b)) as [<-|Hne]; [|rewrite lem by assumption; apply HI].

Ltac open_view HI s a :=
  pose proof (HI a) as Hok;
  destruct (view s a) as [[[[[j|] [p|]] live] hist] begun] eqn:Hv;
  unfold view_ok in Hok; try contradiction.

Lemma start_catch_view s a :
  view (start_catch a s) a =
  match (view s a).1.1.1.1, (view s a).1.1.2 with
  | Some j, true =>
      (Some (with_error (Some "Transcription failed.") (with_status Errored j)),
       (view s a).1.1.1.2, true, Errored :: (view s a).1.2, (view s a).2)
  | _, _ => view s a
  end.
Proof.
  unfold start_catch. rewrite jobs_lookup_view.
  destruct (view s a) as [[[[[j|] p] [|]] hist] begun] eqn:Hv; simpl;
    try (destruct (inherited a); exact Hv).
  autorewrite with views. now rewrite Hv.
Qed.

Lemma start_finally_view s a :
  view (start_finally a s) a =
  ((view s a).1.1.1.1,
   (fun p => {| start := after_finally (view s a).1.1.1.1 (view s a).1.1.2;
                analysis_pc := analysis_pc p |}) <$> (view s a).1.1.1.2,
   (view s a).1.1.2, (view s a).1.2, (view s a).2).
Proof.
  unfold start_finally, set_start. rewrite jobs_lookup_view.
  destruct (view s a) as [[[[[j|] p] [|]] hist] begun] eqn:Hv; simpl;
    try (destruct (inherited a); autorewrite with views; now rewrite Hv).
  destruct (filePath j) as [path|]; [destruct (negb (path =? ""))|];
    autorewrite with views; rewrite ?Hv; reflexivity.
Qed.

Lemma after_finally_not_generate j live : not_at_generate (after_finally j live).
Proof.
  unfold after_finally. destruct j as [j|], live; simpl; try exact I.
  destruct (filePath j); [destruct (negb _)|]; exact I.
Qed.

#[local] Hint Resolve after_finally_not_generate : core.
Arguments after_finally : simpl never.

Ltac split_ok :=
  unfold view_ok, consistent; simpl;
  repeat match goal with
         | |- _ /\ _ => split
         | |- exists _, _ :: _ = _ :: _ => eexists; reflexivity
         | |- exists _, Some _ = Some _ => eexists; reflexivity
         end; try reflexivity; try assumption; try discriminate; eauto.

Lemma inv_generate_settles a client s : Inv s -> Inv (generate_settles a client s).
Proof.
  intros HI b. same_or_other a b HI frame_generate.
  open_view HI s a.
  2:{ unfold generate_settles. rewrite procs_view, Hv. simpl. rewrite Hv. exact Hok. }
  unfold generate_settles. rewrite procs_view, Hv. simpl.
  destruct (start p) as [path| | | |] eqn:Hst; try (rewrite Hv; exact Hok).
  destruct Hok as (Hc & (older & ->) & Hfw & ->).
  destruct p as [st pc]; destruct j as [i stt tr an sb fp er tok];
    unfold consistent in Hc; simpl in *; subst st.
  destruct stt; simpl in Hc; try (intuition; fail).
  destruct Hc as (-> & -> & -> & Hlive).
  assert (Hfail : view_ok (view (start_finally a (start_catch a s)) a)).
  { rewrite start_finally_view, start_catch_view, Hv. simpl.
    destruct live; simpl; split_ok. }
  destruct (Transcript.generate client Transcript.default_timeoutS path).1;
    [|exact Hfail].
  rewrite jobs_lookup_view, Hv. simpl. destruct live.
  - match goal with |- context [tryStartAnalysis a ?s1] =>
      destruct (tryStartAnalysis_view s1 a
                  {| id := i; status := Transcribed; transcript := Some text;
                     analysis := None; selectedBooks := sb; filePath := fp;
                     error := er; accessToken := tok |}
                  {| start := AtGenerate path; analysis_pc := NotCalled |}
                  (Transcribed :: Transcribing :: older) 0) as [E1 E2];
      [autorewrite with views; rewrite Hv; reflexivity|]
    end.
    rewrite E1. unfold set_start. autorewrite with views. rewrite awaiting_view, E2.
    simpl.
    destruct (negb (text =? "") && nonempty_array sb) eqn:E.
    + destruct sb as [| | | |[|x l]|]; try (rewrite andb_false_r in E; discriminate).
      apply andb_prop in E as [E _]. split_ok.
    + split_ok.
  - destruct (inherited a); exact Hfail.
Qed.

Lemma consistent_set_start live j p pc :
  consistent live j p -> not_at_generate (start p) -> not_at_generate pc ->
  consistent live j {| start := pc; analysis_pc := analysis_pc p |}.
Proof.
  unfold consistent. intros Hc Hs Hpc. destruct (status j); simpl; try tauto.
  destruct Hc as (? & ? & ? & Hl). repeat split; try assumption.
  intros Hlive. destruct (Hl Hlive) as [path E]. rewrite E in Hs. destruct Hs.
Qed.

Lemma consistent_dead live j p : consistent live j p -> consistent false j p.
Proof.
  unfold consistent. destruct (status j); try tauto.
  intros (? & ? & ? & _). repeat split; try assumption. discriminate.
Qed.

Lemma consistent_with_filePath live j p fp :
  consistent live j p -> consistent live (with_filePath fp j) p.
Proof. destruct j; exact (fun H => H). Qed.

Lemma inv_start_resumes a s : Inv s -> Inv (start_resumes a s).
Proof.
  intros HI b. same_or_other a b HI frame_start_resumes.
  open_view HI s a; unfold start_resumes; rewrite procs_view, Hv; simpl;
    [|rewrite Hv; exact Hok].
  destruct (start p) as [|[|]| | |] eqn:Hst; try (rewrite Hv; exact Hok).
  rewrite start_finally_view, Hv. simpl.
  destruct Hok as (Hc & Hh & Hf & Hb). unfold view_ok. repeat split; try assumption.
  apply consistent_set_start; [assumption | now rewrite Hst | auto].
Qed.

Lemma inv_unlink_settles a s : Inv s -> Inv (unlink_settles a s).
Proof.
  intros HI b. same_or_other a b HI frame_unlink_settles.
  open_view HI s a; unfold unlink_settles; rewrite procs_view, Hv; simpl;
    [|rewrite Hv; exact Hok].
  destruct (start p) as [| |path| |] eqn:Hst; try (rewrite Hv; exact Hok).
  destruct Hok as (Hc & Hh & Hf & Hb).
  assert (Hs : not_at_generate (start p)) by now rewrite Hst.
  destruct (unlink path (disk s)) as [d|]; unfold set_start.
  - rewrite jobs_lookup_view. autorewrite with views. rewrite Hv. simpl.
    destruct live; [|destruct (inherited a)]; autorewrite with views; rewrite Hv;
      simpl; unfold view_ok; (split; [|now destruct j]).
    + apply consistent_set_start;
        [now apply consistent_with_filePath | assumption | exact I].
    + apply consistent_set_start; [assumption | assumption | exact I].
    + apply consistent_set_start; [assumption | assumption | exact I].
  - autorewrite with views. rewrite Hv. simpl. unfold view_ok.
    split; [|auto]. apply consistent_set_start; [assumption | assumption | exact I].
Qed.

Lemma analysis_fails_view s a :
  view (analysis_fails a s) a =
  ((fun j => with_error (Some "An error occurred during AI analysis.")
               (with_status Errored j)) <$> (view s a).1.1.1.1,
   settled <$> (view s a).1.1.1.2, (view s a).1.1.2,
   Errored :: (view s a).1.2, (view s a).2).
Proof.
  unfold analysis_fails, analysis_settles. autorewrite with views.
  destruct (view s a) as [[[[[j|] p] live] hist] begun]; reflexivity.
Qed.

Lemma analysis_finishes_view s a r :
  view (analysis_finishes a r s) a =
  ((fun j => with_transcript None (with_analysis r (with_status Finished j)))
     <$> (view s a).1.1.1.1,
   settled <$> (view s a).1.1.1.2, (view s a).1.1.2,
   Finished :: (view s a).1.2, (view s a).2).
Proof.
  unfold analysis_finishes, analysis_settles. autorewrite with views.
  destruct (view s a) as [[[[[j|] p] live] hist] begun]; reflexivity.
Qed.

Lemma settled_not_generate p :
  not_at_generate (start p) -> not_at_generate (start (settled p)).
Proof. destruct p as [[|[|]| | |] pc]; simpl; auto. Qed.

(** A call of [getAnalysis] that is under way belongs to a job in state
    [analysis_started]. *)
Lemma in_flight_started live j p :
  consistent live j p -> in_flight (analysis_pc p) = true ->
  status j = AnalysisStarted /\ truthy_str (transcript j) = true /\
  analysis j = None /\ not_at_generate (start p) /\
  match analysis_pc p with
  | AtGetResponse c => Gemini.keys c <> []
  | _ => True
  end.
Proof.
  unfold consistent. intros Hc Hf.
  destruct (status j); try (intuition; fail).
  - destruct Hc as (_ & _ & E & _). rewrite E in Hf. discriminate.
  - destruct Hc as (_ & _ & E & _). rewrite E in Hf. discriminate.
  - destruct Hc as (_ & _ & E & _). rewrite E in Hf. discriminate.
  - destruct Hc as (_ & _ & [[_ E]|E]); rewrite E in Hf; discriminate.
Qed.

Lemma view_ok_fails live j p older :
  consistent live j p -> in_flight (analysis_pc p) = true ->
  forward (status j :: older) = true ->
  view_ok (Some (with_error (Some "An error occurred during AI analysis.")
                   (with_status Errored j)),
           Some (settled p), live, Errored :: status j :: older, 1%nat).
Proof.
  intros Hc Hf Hfw. destruct (in_flight_started _ _ _ Hc Hf) as (Hs & Ht & Ha & Hg & _).
  unfold view_ok, consistent. simpl. rewrite Hs in *.
  repeat split; eauto; exact (settled_not_generate p Hg).
Qed.

Lemma inv_read_settles a s : Inv s -> Inv (read_settles a s).
Proof.
  intros HI b. same_or_other a b HI frame_read_settles.
  open_view HI s a; unfold read_settles; rewrite procs_view, heap_view, Hv; simpl;
    [|rewrite Hv; exact Hok].
  destruct (analysis_pc p) as [|books|c|] eqn:Hpc;
    try (rewrite Hv; unfold view_ok; rewrite Hpc; exact Hok).
  destruct Hok as (Hc & (older & ->) & Hf & ->).
  assert (Hfl : in_flight (analysis_pc p) = true) by now rewrite Hpc.
  assert (Hfail : view_ok (view (analysis_fails a s) a)).
  { rewrite analysis_fails_view, Hv. simpl. now apply view_ok_fails. }
  destruct (load_books (disk s) books) as [bookData|]; [|exact Hfail].
  unfold set_analysis_pc. autorewrite with views. rewrite Hv. simpl.
  destruct (in_flight_started _ _ _ Hc Hfl) as (Hs & Ht & Ha & Hg & _).
  unfold view_ok, consistent. simpl. rewrite Hs in *.
  repeat split; eauto.
Qed.

Lemma inv_response_settles a g s : Inv s -> Inv (response_settles a g s).
Proof.
  intros HI b. same_or_other a b HI frame_response_settles.
  open_view HI s a; unfold response_settles; rewrite procs_view, Hv; simpl;
    [|rewrite Hv; exact Hok].
  destruct (analysis_pc p) as [|books|c|] eqn:Hpc;
    try (rewrite Hv; unfold view_ok; rewrite Hpc; exact Hok).
  destruct Hok as (Hc & (older & ->) & Hf & ->).
  assert (Hfl : in_flight (analysis_pc p) = true) by now rewrite Hpc.
  destruct (in_flight_started _ _ _ Hc Hfl) as (Hs & Ht & Ha & Hg & Hk).
  rewrite Hpc in Hk.
  rewrite analysis_finishes_view, Hv. simpl.
  unfold view_ok, consistent. simpl. rewrite Hs in *.
  repeat split; eauto using getResponse_returns; exact (settled_not_generate p Hg).
Qed.

Lemma authorizeJob_next s a h t : authorizeJob s a h = Next t -> jobs_lookup s a = Some t.
Proof.
  unfold authorizeJob. destruct (jobs_lookup s a) as [t'|]; [|discriminate].
  destruct (_ || _); [discriminate|]. now intros [= ->].
Qed.

Lemma consistent_with_selectedBooks live j p v :
  consistent live j p ->
  (status j = Transcribed ->
   truthy_str (transcript j) && nonempty_array v = false) ->
  consistent live (with_selectedBooks v j) p.
Proof.
  unfold consistent. destruct j as [i st tr an sb fp er tok]; simpl.
  destruct st; tauto.
Qed.

Lemma inv_post_booksselection a h v s : Inv s -> Inv (post_booksselection a h v s).
Proof.
  intros HI b. same_or_other a b HI frame_post_booksselection.
  unfold post_booksselection.
  destruct (authorizeJob s a h) as [| |[job|name]] eqn:Ea;
    try (autorewrite with views; apply HI).
  - apply authorizeJob_next in Ea. rewrite jobs_lookup_view in Ea.
    open_view HI s a; simpl in Ea;
      try (destruct live; try destruct (inherited a); discriminate).
    destruct live; [|destruct (inherited a); discriminate].
    injection Ea as <-.
    destruct Hok as (Hc & (older & ->) & Hf & ->).
    match goal with |- context [tryStartAnalysis a ?s1] =>
      destruct (tryStartAnalysis_view s1 a (with_selectedBooks (selected_or_empty v) j)
                  p (status j :: older)
                  match analysis_pc p with NotCalled => 0%nat | _ => 1%nat end)
        as [E1 E2];
      [autorewrite with views; rewrite Hv; reflexivity|]
    end.
    rewrite E1, E2. clear E1 E2.
    replace (status (with_selectedBooks (selected_or_empty v) j)) with (status j)
      by now destruct j.
    replace (transcript (with_selectedBooks (selected_or_empty v) j)) with (transcript j)
      by now destruct j.
    replace (selectedBooks (with_selectedBooks (selected_or_empty v) j))
      with (selected_or_empty v) by now destruct j.
    assert (Hsame : forall st, status j = st -> st <> Transcribed ->
              view_ok (Some (with_selectedBooks (selected_or_empty v) j), Some p, true,
                       status j :: older,
                       match analysis_pc p with NotCalled => 0%nat | _ => 1%nat end)).
    { intros st Hs Hn. unfold view_ok. repeat split; eauto.
      apply consistent_with_selectedBooks; [assumption|congruence]. }
    destruct (status j) eqn:Hs; simpl.
    + unfold consistent in Hc. rewrite Hs in Hc. destruct Hc as (Ht & _).
      rewrite Ht. simpl. now apply (Hsame Transcribing).
    + destruct (truthy_str (transcript j) && nonempty_array (selected_or_empty v)) eqn:E.
      * destruct (selected_or_empty v) as [| | | |[|x l]|];
          try (rewrite andb_false_r in E; discriminate).
        apply andb_prop in E as [E _].
        unfold consistent in Hc. rewrite Hs in Hc.
        destruct Hc as (_ & Ha & Hpc & Hg & _).
        unfold view_ok, consistent. destruct j; simpl in *. subst.
        repeat split; eauto. now rewrite Hpc.
      * unfold view_ok. repeat split; eauto.
        -- apply consistent_with_selectedBooks; [assumption|]. now intros _.
        -- destruct j; simpl in *; subst; eauto.
    + now apply (Hsame AnalysisStarted).
    + now apply (Hsame Finished).
    + now apply (Hsame Errored).
  - apply authorizeJob_next in Ea. unfold tryStartAnalysis.
    assert (E : jobs_lookup (emit (Respond 200 PlainOK) s) a = Some (Inherited name))
      by exact Ea.
    rewrite E. simpl. autorewrite with views. apply HI.
Qed.

Lemma inv_get_status a h s : Inv s -> Inv (get_status a h s).
Proof. intros HI b. rewrite frame_get_status. apply HI. Qed.

Lemma inv_disk_removed path s : Inv s -> Inv (set_disk (delete path (disk s)) s).
Proof. intros HI b. rewrite view_set_disk. apply HI. Qed.

Lemma view_drop_key s a :
  view {| keys := keys s ∖ {[a]}; heap := heap s; disk := disk s;
          procs := procs s; out := out s |} a =
  ((view s a).1.1.1.1, (view s a).1.1.1.2, false, (view s a).1.2, (view s a).2).
Proof.
  unfold view; simpl. f_equal. f_equal. f_equal.
  apply bool_decide_eq_false. set_solver.
Qed.

Lemma inv_expire a s : Inv s -> Inv (expire a s).
Proof.
  intros HI b. same_or_other a b HI frame_expire.
  open_view HI s a; unfold expire; rewrite procs_view, Hv; simpl;
    [|rewrite Hv; exact Hok].
  rewrite jobs_lookup_view, Hv. simpl.
  destruct live; [|destruct (inherited a); rewrite Hv; exact Hok].
  rewrite view_drop_key.
  match goal with |- context [view ?s1 a] =>
    assert (E : view s1 a = view s a)
  end.
  { destruct (truthy_str (filePath j)); [|reflexivity].
    destruct (filePath j) as [path|]; [|reflexivity].
    destruct (unlink path (disk s)); reflexivity. }
  rewrite E, Hv. simpl. destruct Hok as (Hc & Hrest).
  unfold view_ok. split; [|exact Hrest]. exact (consistent_dead _ _ _ Hc).
Qed.

Lemma inv_post_start a tok file s : Inv s -> Inv (post_start a tok file s).
Proof.
  intros HI b. same_or_other a b HI frame_post_start.
  unfold post_start. destruct file as [[path content]|];
    [|autorewrite with views; apply HI].
  destruct (fresh s a) eqn:Hfr; [|apply HI].
  unfold fresh in Hfr.
  pose proof (HI a) as Hok. unfold view, view_ok in Hok.
  destruct (heap s !! a) eqn:Hh; [discriminate|].
  destruct (procs s !! a) eqn:Hp; [discriminate|].
  destruct Hok as (_ & Hhist & Hbeg).
  unfold view; simpl. rewrite !lookup_insert_eq, String.eqb_refl, Hhist, Hbeg.
  rewrite bool_decide_eq_true_2 by set_solver.
  unfold view_ok, consistent; simpl. repeat split; eauto.
Qed.

(** Every event keeps the invariant. *)
Lemma step_inv s e : Inv s -> Inv (step s e).
Proof.
  intros HI. destruct e; simpl.
  - now apply inv_post_start.
  - now apply inv_generate_settles.
  - now apply inv_start_resumes.
  - now apply inv_unlink_settles.
  - now apply inv_read_settles.
  - now apply inv_response_settles.
  - now apply inv_post_booksselection.
  - now apply inv_get_status.
  - now apply inv_expire.
  - now apply inv_disk_removed.
Qed.

Lemma init_inv d : Inv (init d).
Proof. intros b. unfold view, view_ok; simpl. rewrite !lookup_empty. auto. Qed.

Lemma reachable_inv s : reachable s -> Inv s.
Proof. induction 1; [apply init_inv | now apply step_inv]. Qed.

Lemma reachable_run s es : reachable s -> reachable (run s es).
Proof.
  revert s. induction es as [|e es IH]; intros s H; simpl; [exact H|].
  apply IH. now constructor.
Qed.

(** ** What one event adds to the history of effects *)

Lemma analysis_begins_app a l1 l2 :
  analysis_begins a (l1 ++ l2) = (analysis_begins a l1 + analysis_begins a l2)%nat.
Proof.
  induction l1 as [|e l1 IH]; [reflexivity|].
  destruct e; simpl; try exact IH. destruct (String.eqb jobId a); simpl; now rewrite IH.
Qed.

Lemma adapter_calls_app a l1 l2 :
  adapter_calls a (l1 ++ l2) = (adapter_calls a l1 + adapter_calls a l2)%nat.
Proof.
  induction l1 as [|e l1 IH]; [reflexivity|].
  destruct e; simpl; try exact IH; destruct (String.eqb jobId a); simpl; now rewrite IH.
Qed.

Lemma status_history_app a l1 l2 :
  status_history a (l1 ++ l2) = (status_history a l1 ++ status_history a l2)%list.
Proof.
  induction l1 as [|e l1 IH]; [reflexivity|].
  destruct e; simpl; try exact IH. destruct (String.eqb jobId a); simpl; now rewrite IH.
Qed.

Ltac strip l o :=
  lazymatch l with
  | o => constr:(@nil Effect)
  | ?x :: ?l' => let r := strip l' o in constr:(x :: r)
  end.

Ltac give_newer :=
  lazymatch goal with
  | |- exists n, ?l = (n ++ ?o)%list /\ _ => let n := strip l o in exists n
  end.

(** An adapter is called for a job by the [/start] handler that creates it,
    and by [getAnalysis] once its books are loaded; nowhere else. *)
Lemma step_adapter_calls s e a :
  exists newer, out (step s e) = (newer ++ out s)%list /\
    (adapter_calls a newer = 0%nat \/
     (exists tok f, e = PostStart a tok f /\ fresh s a = true) \/
     (e = ReadSettles a /\
      exists p books, procs s !! a = Some p /\ analysis_pc p = AtReadFiles books)).
Proof.
  destruct e; simpl; unfold_handlers; repeat case_match; simpl; give_newer;
    (split; [reflexivity|]); simpl; auto.
  all: destruct (String.eqb_spec jobId a) as [->|Hne]; auto; right; eauto 10.
Qed.

(** ** When the analysis stage begins *)

Ltac same_begins := left; autorewrite with views; reflexivity.

Lemma begins_generate a client s :
  Inv s -> begins_ok (view s a) (view (generate_settles a client s) a).
Proof.
  intros HI. open_view HI s a.
  2:{ left. unfold generate_settles. rewrite procs_view, Hv. cbn [fst snd].
      rewrite Hv. reflexivity. }
  unfold generate_settles. rewrite procs_view, Hv. cbn [fst snd].
  destruct (start p) as [path| | | |] eqn:Hst; try (left; rewrite Hv; reflexivity).
  destruct Hok as (Hc & (older & ->) & Hfw & ->).
  destruct p as [st pc]; destruct j as [i stt tr an sb fp er tok];
    unfold consistent in Hc; simpl in *; subst st.
  destruct stt; simpl in Hc; try (intuition; fail).
  destruct Hc as (-> & -> & -> & Hlive).
  assert (Hfail : begins_ok (Some {| id := i; status := Transcribing; transcript := None;
                                     analysis := None; selectedBooks := sb; filePath := fp;
                                     error := er; accessToken := tok |},
                             Some {| start := AtGenerate path; analysis_pc := NotCalled |},
                             live, Transcribing :: older, 0%nat)
                            (view (start_finally a (start_catch a s)) a)).
  { left. rewrite start_finally_view, start_catch_view, Hv. simpl.
    destruct live; reflexivity. }
  destruct (Transcript.generate client Transcript.default_timeoutS path).1;
    [|exact Hfail].
  rewrite jobs_lookup_view, Hv. simpl. destruct live.
  - match goal with |- context [tryStartAnalysis a ?s1] =>
      destruct (tryStartAnalysis_view s1 a
                  {| id := i; status := Transcribed; transcript := Some text;
                     analysis := None; selectedBooks := sb; filePath := fp;
                     error := er; accessToken := tok |}
                  {| start := AtGenerate path; analysis_pc := NotCalled |}
                  (Transcribed :: Transcribing :: older) 0) as [E1 E2];
      [autorewrite with views; rewrite Hv; reflexivity|]
    end.
    rewrite E1. unfold set_start. autorewrite with views. rewrite awaiting_view, E2.
    simpl.
    destruct (negb (text =? "") && nonempty_array sb) eqn:E.
    + destruct sb as [| | | |[|x l]|]; try (rewrite andb_false_r in E; discriminate).
      right. simpl. repeat split. eexists. split; [reflexivity|]. split; [exact E|reflexivity].
    + left. reflexivity.
  - destruct (inherited a); exact Hfail.
Qed.

Lemma begins_post_booksselection a h v s :
  Inv s -> begins_ok (view s a) (view (post_booksselection a h v s) a).
Proof.
  intros HI. unfold post_booksselection.
  destruct (authorizeJob s a h) as [| |[job|name]] eqn:Ea; try same_begins.
  - apply authorizeJob_next in Ea. rewrite jobs_lookup_view in Ea.
    open_view HI s a; simpl in Ea;
      try (destruct live; try destruct (inherited a); discriminate).
    destruct live; [|destruct (inherited a); discriminate].
    injection Ea as <-.
    destruct Hok as (Hc & (older & ->) & Hf & ->).
    match goal with |- context [tryStartAnalysis a ?s1] =>
      destruct (tryStartAnalysis_view s1 a (with_selectedBooks (selected_or_empty v) j)
                  p (status j :: older)
                  match analysis_pc p with NotCalled => 0%nat | _ => 1%nat end)
        as [E1 E2];
      [autorewrite with views; rewrite Hv; reflexivity|]
    end.
    rewrite E1, E2. clear E1 E2.
    destruct (already_started (status (with_selectedBooks (selected_or_empty v) j)))
      eqn:Ha; [now left|].
    destruct (truthy_str (transcript (with_selectedBooks (selected_or_empty v) j))
              && nonempty_array (selectedBooks (with_selectedBooks (selected_or_empty v) j)))
      eqn:E; [|now left].
    destruct (selectedBooks (with_selectedBooks (selected_or_empty v) j)) eqn:Eb;
      try (now left).
    right. simpl.
    assert (Hpc : analysis_pc p = NotCalled).
    { unfold consistent in Hc. destruct j as [i [] tr an sb fp er tok]; simpl in *;
        try discriminate; tauto. }
    rewrite Hpc. repeat split. eexists. split; [reflexivity|].
    split; [|reflexivity]. unfold ready. destruct j; simpl in *. now rewrite Eb.
  - apply authorizeJob_next in Ea. unfold tryStartAnalysis.
    assert (E : jobs_lookup (emit (Respond 200 PlainOK) s) a = Some (Inherited name))
      by exact Ea.
    rewrite E. simpl. same_begins.
Qed.

Lemma begins_other s e a :
  match e with
  | GenerateSettles _ _ | PostBooksSelection _ _ _ => True
  | _ => (view (step s e) a).2 = (view s a).2
  end.
Proof.
  destruct e; simpl; try exact I; unfold_handlers; repeat case_match;
    unfold view; simpl; try reflexivity.
Qed.

(** Whatever happens, the stage begins at most once, and on a ready job. *)
Lemma step_begins s e a : Inv s -> begins_ok (view s a) (view (step s e) a).
Proof.
  intros HI. pose proof (begins_other s e a) as Ho.
  destruct e; try (left; exact Ho); simpl.
  - destruct (decide (jobId = a)) as [->|Hne];
      [now apply begins_generate | left; now rewrite frame_generate].
  - destruct (decide (jobId = a)) as [->|Hne];
      [now apply begins_post_booksselection
      | left; now rewrite frame_post_booksselection].
Qed.

(** ** Histories that only move forward *)

Lemma edge_rank a b : edge a b = true -> (rank a < rank b)%nat.
Proof. destruct a, b; simpl; intros H; try discriminate; lia. Qed.

Lemma forward_tail b rest : forward (b :: rest) = true -> rest <> [] -> forward rest = true.
Proof.
  simpl. destruct rest as [|a r]; [congruence|].
  intros H _. now apply andb_prop in H as [_ H].
Qed.

Lemma forward_below b rest :
  forward (b :: rest) = true -> Forall (fun a => rank a < rank b)%nat rest.
Proof.
  revert b. induction rest as [|a r IH]; intros b H; [constructor|].
  simpl in H. apply andb_prop in H as [He Hf].
  apply edge_rank in He. constructor; [exact He|].
  eapply Forall_impl; [apply IH, Hf|]. simpl. intros x Hx. lia.
Qed.

(** No status is written twice. *)
Lemma forward_NoDup h : forward h = true -> NoDup h.
Proof.
  induction h as [|b rest IH]; intros H; [constructor|].
  constructor.
  - intros Hin. pose proof (forward_below _ _ H) as Hb.
    rewrite Forall_forall in Hb. specialize (Hb _ Hin). lia.
  - destruct rest as [|a r]; [constructor|].
    apply IH. now apply (forward_tail b).
Qed.

(** The first status written is [Transcribing]. *)
Lemma forward_last h : forward h = true -> h <> [] -> last h = Some Transcribing.
Proof.
  induction h as [|b rest IH]; intros H Hne; [congruence|].
  destruct rest as [|a r].
  - simpl in H. destruct b; try discriminate. reflexivity.
  - rewrite last_cons_cons. apply IH; [now apply (forward_tail b)|discriminate].
Qed.

(** A set of statuses that no edge leaves is never left. *)
Lemma forward_stays (P : Status -> Prop) newer t rest h older :
  (forall x y, P x -> edge x y = true -> P y) ->
  forward (newer ++ t :: rest) = true -> P t ->
  (newer ++ t :: rest)%list = h :: older -> P h.
Proof.
  intros Hclosed. revert h older.
  induction newer as [|x newer IH]; intros h older Hf Ht E.
  - simpl in E. now injection E as <- _.
  - simpl in E. injection E as <- _.
    change ((x :: newer) ++ t :: rest)%list with (x :: (newer ++ t :: rest))%list in Hf.
    destruct (newer ++ t :: rest)%list as [|y l] eqn:El.
    + destruct newer; discriminate.
    + simpl in Hf. apply andb_prop in Hf as [He Hf].
      apply (Hclosed y x); [|exact He].
      apply (IH y l); [exact Hf | exact Ht | reflexivity].
Qed.

Lemma started_closed x y : already_started x = true -> edge x y = true -> already_started y = true.
Proof. destruct x, y; simpl; intros; try discriminate; reflexivity. Qed.

Lemma errored_closed x y : x = Errored -> edge x y = true -> y = Errored.
Proof. intros ->. destruct y; simpl; intros; try discriminate; reflexivity. Qed.

Lemma already_started_cases st :
  already_started st = true <-> st = AnalysisStarted \/ st = Finished \/ st = Errored.
Proof. destruct st; split; intros H; try discriminate; try tauto; intuition discriminate. Qed.

(** ** One event, seen from one job *)

Lemma suffix_of_step s e : exists newer, out (step s e) = (newer ++ out s)%list.
Proof. destruct (step_adapter_calls s e "") as (n & H & _). eauto. Qed.

(** A job object stays, and its status stays within any set of statuses
    that no edge leaves. *)
Lemma step_status_stays (P : Status -> Prop) s e a j :
  (forall x y, P x -> edge x y = true -> P y) ->
  Inv s -> heap s !! a = Some j -> P (status j) ->
  exists j', heap (step s e) !! a = Some j' /\ P (status j').
Proof.
  intros Hclosed HI Hh HP.
  pose proof (HI a) as Hok. pose proof (step_inv s e HI a) as Hok'.
  destruct (suffix_of_step s e) as (newer & Hout).
  unfold view_ok, view in Hok, Hok'. rewrite Hh in Hok. rewrite Hout in Hok'.
  rewrite status_history_app in Hok'.
  destruct (procs s !! a) as [p|]; [|contradiction].
  destruct Hok as (_ & (older & Hhist) & _). rewrite Hhist in Hok'.
  destruct (heap (step s e) !! a) as [j'|], (procs (step s e) !! a) as [p'|];
    try contradiction.
  - destruct Hok' as (_ & (older' & Hhist') & Hf' & _).
    exists j'. split; [reflexivity|].
    eapply forward_stays; [exact Hclosed | exact Hf' | exact HP | exact Hhist'].
  - destruct Hok' as (_ & Hnil & _).
    destruct (status_history a newer); discriminate.
Qed.

(** * The claims *)



(** C5. Once the status of a job is [error], whatever events follow, the
    job stays in status [error], and neither adapter is called for it
    again: the numbers of calls to [Transcript.generate] and
    [Gemini.getResponse], and of analyses begun, stay what they were. *)
Theorem error_is_final (s : State) (jobId : string) (job : Job) (es : list Event) :
  reachable s -> heap s !! jobId = Some job -> status job = Errored ->
  (exists job', heap (run s es) !! jobId = Some job' /\ status job' = Errored) /\
  adapter_calls jobId (out (run s es)) = adapter_calls jobId (out s) /\
  analysis_begins jobId (out (run s es)) = analysis_begins jobId (out s).
Proof.
  intros Hr. revert s job Hr.
  induction es as [|e es IH]; intros s job Hr Hh Hs; simpl; [eauto|].
  pose proof (reachable_inv s Hr) as HI.
  destruct (step_status_stays (fun st => st = Errored) s e jobId job
              errored_closed HI Hh Hs) as (j1 & Hh1 & Hs1).
  destruct (IH (step s e) j1 (reachable_step s e Hr) Hh1 Hs1) as (Hj & Hc & Hb).
  split; [exact Hj|].
  pose proof (HI jobId) as Hok. unfold view_ok, view in Hok. rewrite Hh in Hok.
  destruct (procs s !! jobId) as [p|] eqn:Hp; [|contradiction].
  destruct Hok as (Hcons & _ & _ & Hbeg).
  unfold consistent in Hcons. rewrite Hs in Hcons. destruct Hcons as (_ & _ & Hpc).
  split.
  - rewrite Hc. destruct (step_adapter_calls s e jobId) as (newer & Hout & Hcalls).
    rewrite Hout, adapter_calls_app.
    destruct Hcalls as [->|[(tok & f & -> & Hfr)|(-> & p' & books & Hp' & Hbooks)]].
    + reflexivity.
    + unfold fresh in Hfr. rewrite Hh in Hfr. discriminate.
    + rewrite Hp in Hp'. injection Hp' as <-. rewrite Hbooks in Hpc.
      destruct Hpc as [[_ ?]|?]; discriminate.
  - rewrite Hb. destruct (step_begins s e jobId HI) as [E|(_ & _ & j' & Hj' & _ & Hst)].
    + exact E.
    + unfold view in Hj'. simpl in Hj'. rewrite Hh1 in Hj'. injection Hj' as <-.
      rewrite Hs1 in Hst. discriminate.
Qed.

(** C3. In every state the server can reach, the [analysis] field of a job
    is not [null] exactly when its status is [finished]; and so it is in
    every answer of [GET /status]. *)
Theorem report_present_iff_finished (s : State) (jobId : string) (job : Job) :
  reachable s -> heap s !! jobId = Some job ->
  (analysis job <> None <-> status job = Finished) /\
  (forall authHeader st a e,
     out (get_status jobId authHeader s) = Respond 200 (StatusReport st a e) :: out s ->
     (a <> None <-> st = Some (status_string Finished))).
Proof.
  intros Hr Hh. pose proof (reachable_inv s Hr jobId) as Hok.
  unfold view_ok, view in Hok. rewrite Hh in Hok.
  destruct (procs s !! jobId) as [p|]; [|contradiction].
  destruct Hok as (Hc & _). unfold consistent in Hc.
  assert (Hiff : analysis job <> None <-> status job = Finished).
  { destruct (status job); split; intros H; try discriminate; try tauto;
      try (exfalso; apply H; tauto). }
  split; [exact Hiff|].
  intros h st a e. unfold get_status, authorizeJob, jobs_lookup.
  destruct (bool_decide (jobId ∈ keys s)); rewrite ?Hh.
  - destruct (_ || _); simpl; [discriminate|]. intros [= <- <- <-].
    rewrite Hiff. destruct (status job); split; intros H; try discriminate; reflexivity.
  - destruct (inherited jobId); simpl; [|discriminate].
    destruct (_ || _); simpl; [discriminate|]. intros [= <- <- <-].
    split; [congruence|discriminate].
Qed.

(** C6, as amended. A job is stored in status [transcribing] as soon as a
    valid upload is accepted: the code has no status [created]. The 202
    response is sent before [Transcript.generate] is called, and the
    handler is then suspended on that call. From there the statuses
    written to a job follow the edges [transcribing -> transcribed ->
    analysis_started -> finished], or an edge from one of the first three
    to [error]; none is written twice, none is skipped. *)
Theorem status_moves_forward (s : State) :
  reachable s ->
  (forall jobId token path content,
     fresh s jobId = true ->
     let s' := step s (PostStart jobId token (Some (path, content))) in
     option_map status (heap s' !! jobId) = Some Transcribing /\
     out s' = CallGenerate jobId path :: Respond 202 (JobCreated jobId token)
              :: SetStatus jobId Transcribing :: out s /\
     option_map start (procs s' !! jobId) = Some (AtGenerate path)) /\
  (forall jobId job,
     heap s !! jobId = Some job ->
     exists older,
       status_history jobId (out s) = status job :: older /\
       forward (status job :: older) = true /\
       NoDup (status job :: older) /\
       last (status job :: older) = Some Transcribing) /\
  (forall a b, edge a b = true <->
     (a = Transcribing /\ b = Transcribed) \/
     (a = Transcribed /\ b = AnalysisStarted) \/
     (a = AnalysisStarted /\ b = Finished) \/
     ((a = Transcribing \/ a = Transcribed \/ a = AnalysisStarted) /\ b = Errored)).
Proof.
  intros Hr. split; [|split].
  - intros jobId token path content Hfr s'. subst s'. simpl.
    unfold post_start. rewrite Hfr. simpl. rewrite !lookup_insert_eq. auto.
  - intros jobId job Hh. pose proof (reachable_inv s Hr jobId) as Hok.
    unfold view_ok, view in Hok. rewrite Hh in Hok.
    destruct (procs s !! jobId) as [p|]; [|contradiction].
    destruct Hok as (_ & (older & Hhist) & Hf & _). rewrite Hhist in Hf.
    exists older. repeat split; [exact Hhist | exact Hf | |].
    + now apply forward_NoDup.
    + now apply forward_last.
  - intros a b. destruct a, b; simpl; split; intros H; try discriminate;
      try reflexivity; try tauto;
      repeat match goal with
             | H : _ \/ _ |- _ => destruct H
             | H : _ /\ _ |- _ => destruct H
             end; discriminate.
Qed.

(** C2, as amended. The analysis stage begins if and only if the
    transcript is present and not the empty string and the selected
    references are a non-empty array ([ready]). In every reachable state a
    ready job has had its analysis begun, exactly once; an event makes the
    stage begin only for the first time and leaves the job ready, in
    status [analysis_started]; the stage never begins twice; once the
    status is [analysis_started], [finished] or [error], no event begins
    it again; and [tryStartAnalysis] itself begins it exactly when the
    status is none of these and the job is ready. *)
Theorem analysis_begins_once_when_ready (s : State) (jobId : string) (job : Job) :
  reachable s -> heap s !! jobId = Some job ->
  (ready job = true -> analysis_begins jobId (out s) = 1%nat) /\
  (forall e,
     analysis_begins jobId (out (step s e)) <> analysis_begins jobId (out s) ->
     analysis_begins jobId (out s) = 0%nat /\
     analysis_begins jobId (out (step s e)) = 1%nat /\
     exists job', heap (step s e) !! jobId = Some job' /\ ready job' = true /\
                  status job' = AnalysisStarted) /\
  (forall es, (analysis_begins jobId (out (run s es)) <= 1)%nat) /\
  (already_started (status job) = true ->
   forall es, analysis_begins jobId (out (run s es)) = analysis_begins jobId (out s)) /\
  (jobId ∈ keys s ->
   analysis_begins jobId (out (fst (tryStartAnalysis jobId s))) =
   (analysis_begins jobId (out s)
    + if negb (already_started (status job)) && ready job then 1 else 0)%nat).
Proof.
  intros Hr Hh. pose proof (reachable_inv s Hr) as HI.
  assert (Hbound : forall s', reachable s' -> (analysis_begins jobId (out s') <= 1)%nat).
  { intros s' Hr'. pose proof (reachable_inv s' Hr' jobId) as Hok.
    unfold view_ok, view in Hok.
    destruct (heap s' !! jobId), (procs s' !! jobId) as [p|]; try contradiction.
    - destruct Hok as (_ & _ & _ & ->). destruct (analysis_pc p); lia.
    - destruct Hok as (_ & _ & ->). lia. }
  pose proof (HI jobId) as Hok. unfold view_ok, view in Hok. rewrite Hh in Hok.
  destruct (procs s !! jobId) as [p|] eqn:Hp; [|contradiction].
  destruct Hok as (Hc & (older & Hhist) & Hf & Hbeg).
  split; [|split; [|split; [|split]]].
  - intros Hready. rewrite Hbeg. unfold consistent, ready in *.
    destruct (status job).
    + destruct Hc as (Ht & _). rewrite Ht in Hready. discriminate.
    + destruct Hc as (_ & _ & _ & _ & Hn). congruence.
    + destruct Hc as (_ & _ & Hfl & _). destruct (analysis_pc p); try discriminate; reflexivity.
    + destruct Hc as (Ht & _). rewrite Ht in Hready. discriminate.
    + destruct Hc as (_ & _ & [[Ht _] | ->]); [|reflexivity].
      rewrite Ht in Hready. discriminate.
  - intros e Hne. destruct (step_begins s e jobId HI) as [E|(E0 & E1 & j' & Hj' & Hrd & Hst)].
    + exfalso. apply Hne. exact E.
    + split; [exact E0|]. split; [exact E1|]. exists j'. auto.
  - intros es. apply Hbound. now apply reachable_run.
  - intros Hst es. revert s job Hr HI Hh p Hp Hc older Hhist Hf Hbeg Hst.
    induction es as [|e es IH]; intros; simpl; [reflexivity|].
    destruct (step_status_stays (fun st => already_started st = true) s e jobId job
                started_closed HI Hh Hst) as (j1 & Hh1 & Hs1).
    pose proof (reachable_step s e Hr) as Hr1.
    pose proof (reachable_inv _ Hr1) as HI1.
    pose proof (HI1 jobId) as Hok1. unfold view_ok, view in Hok1. rewrite Hh1 in Hok1.
    destruct (procs (step s e) !! jobId) as [p1|] eqn:Hp1; [|contradiction].
    destruct Hok1 as (Hc1 & (older1 & Hhist1) & Hf1 & Hbeg1).
    rewrite (IH (step s e) j1 Hr1 HI1 Hh1 p1 Hp1 Hc1 older1 Hhist1 Hf1 Hbeg1 Hs1).
    destruct (step_begins s e jobId HI) as [E|(E0 & _ & j' & Hj' & _ & Hst')];
      [exact E|].
    exfalso. unfold view in Hj', E0. simpl in Hj', E0. rewrite Hh1 in Hj'.
    injection Hj' as <-.
    apply already_started_cases in Hst as [Hst|[Hst|Hst]].
    + unfold consistent in Hc. rewrite Hst in Hc. destruct Hc as (_ & _ & Hfl & _).
      rewrite Hbeg in E0. destruct (analysis_pc p); discriminate.
    + unfold consistent in Hc. rewrite Hst in Hc. destruct Hc as (_ & _ & Hpc & _).
      rewrite Hbeg, Hpc in E0. discriminate.
    + destruct (step_status_stays (fun st => st = Errored) s e jobId job
                  errored_closed HI Hh Hst) as (j2 & Hh2 & Hs2).
      rewrite Hh1 in Hh2. injection Hh2 as <-. rewrite Hs2 in Hst'. discriminate.
  - intros Hk.
    destruct (tryStartAnalysis_view s jobId job p (status_history jobId (out s))
                (analysis_begins jobId (out s))) as [_ E].
    { unfold view. rewrite Hh, Hp. now rewrite bool_decide_eq_true_2. }
    change (analysis_begins jobId (out (fst (tryStartAnalysis jobId s))))
      with (view (fst (tryStartAnalysis jobId s)) jobId).2.
    rewrite E. unfold ready.
    destruct (already_started (status job)); simpl; [lia|].
    destruct (truthy_str (transcript job) && nonempty_array (selectedBooks job)) eqn:Er;
      simpl; [|lia].
    apply andb_prop in Er as [_ Er].
    destruct (selectedBooks job) as [| | | |[|x l]|]; try discriminate. simpl. lia.
Qed.



(** ** The credential pool *)

(** When every credential fails, [getResponse] does not throw: it returns
    an object whose [error] carries the message of the last attempt. *)
Lemma attempts_exhausted g rest i n :
  rest <> [] -> (i + length rest = n)%nat ->
  (forall k, In k rest -> exists m, g k = Gemini.Failed m) ->
  exists m, g (List.last rest "") = Gemini.Failed m /\
            fst (Gemini.attempts g rest i n) =
            Some {| Gemini.response := None;
                    Gemini.error := Some ("Gemini API error: " ++ m) |}.
Proof.
  revert i. induction rest as [|k rest IH]; intros i Hne Hlen Hall; [congruence|].
  destruct (Hall k (or_introl eq_refl)) as [m Hm].
  simpl Gemini.attempts. rewrite Hm.
  destruct rest as [|k' rest'].
  - simpl in Hlen. replace (Nat.eqb i (n - 1)) with true
      by (symmetry; apply Nat.eqb_eq; lia).
    exists m. split; [exact Hm|reflexivity].
  - replace (Nat.eqb i (n - 1)) with false
      by (symmetry; apply Nat.eqb_neq; simpl in Hlen; lia).
    destruct (IH (S i)) as (m' & Hl & Hr).
    + discriminate.
    + simpl in *. lia.
    + intros x Hx. apply Hall. now right.
    + exists m'. split; [exact Hl|exact Hr].
Qed.

(** C1. Where the claim fails: the books are read, all six credentials
    fail with ["quota exceeded"], and [getAnalysis] stores what
    [getResponse] returned. The job ends in status [finished]; its
    [analysis] is an object whose [error] is the provider's message; its
    [error] field stays [null]; and [GET /status] returns all of that. *)
Theorem exhausted_pool_is_reported_as_finished :
  option_map status (heap exhausted !! "job-1") = Some Finished /\
  option_map analysis (heap exhausted !! "job-1") =
    Some (Some {| Gemini.response := None;
                  Gemini.error := Some "Gemini API error: quota exceeded" |}) /\
  option_map error (heap exhausted !! "job-1") = Some None /\
  hd_error (responses (out (step exhausted (GetStatus "job-1" (Some "Bearer secret"))))) =
    Some (200%nat,
          StatusReport (Some "finished")
            (Some {| Gemini.response := None;
                     Gemini.error := Some "Gemini API error: quota exceeded" |})
            None).
Proof. vm_compute. repeat split. Qed.

(** ** The access gate on the keys of the table *)

(** On an identifier that names no property of [Object.prototype] the gate
    does what its contract says. *)
Lemma authorizeJob_on_plain_ids s jobId authHeader :
  inherited jobId = false ->
  match authorizeJob s jobId authHeader with
  | NotFound => jobs_lookup s jobId = None
  | Forbidden =>
      exists job, jobs_lookup s jobId = Some (Own job) /\
                  authHeader <> Some ("Bearer " ++ accessToken job)
  | Next target =>
      exists job, target = Own job /\ jobs_lookup s jobId = Some (Own job) /\
                  authHeader = Some ("Bearer " ++ accessToken job)
  end.
Proof.
  intros Hin. unfold authorizeJob.
  assert (Hl : forall name, jobs_lookup s jobId <> Some (Inherited name)).
  { unfold jobs_lookup. rewrite Hin. now destruct (if bool_decide _ then _ else _). }
  destruct (jobs_lookup s jobId) as [[job|name]|] eqn:El;
    [|exfalso; now apply (Hl name)|reflexivity].
  destruct authHeader as [h|]; simpl.
  - destruct (String.eqb_spec h "") as [->|Hne]; simpl.
    + exists job. split; [reflexivity|]. discriminate.
    + destruct (String.eqb_spec h ("Bearer " ++ accessToken job)) as [->|Hne']; simpl.
      * exists job. auto.
      * exists job. split; [reflexivity|]. congruence.
  - exists job. split; [reflexivity|]. discriminate.
Qed.

(** A job that was evicted is not found, whatever the credential. *)
Lemma evicted_job_is_not_found s jobId authHeader :
  inherited jobId = false ->
  authorizeJob (expire jobId s) jobId authHeader = NotFound \/
  expire jobId s = s.
Proof.
  intros Hin. unfold expire.
  destruct (procs s !! jobId); [|now right].
  destruct (jobs_lookup s jobId) as [[job|name]|]; try (now right).
  left. unfold authorizeJob, jobs_lookup. simpl.
  rewrite bool_decide_eq_false_2 by set_solver. now rewrite Hin.
Qed.

(** C4. Where the claim fails: no job was ever created, and the request
    names the identifier [constructor]. [jobs['constructor']] is the
    function every object inherits, so the gate does not answer 404: it
    answers 403 to a missing or arbitrary credential, and lets the request
    through when the header is ["Bearer undefined"]. *)
Theorem inherited_key_is_not_reported_missing :
  heap (init library) !! "constructor" = None /\
  authorizeJob (init library) "constructor" None = Forbidden /\
  authorizeJob (init library) "constructor" (Some "Bearer secret") = Forbidden /\
  authorizeJob (init library) "constructor" (Some "Bearer undefined")
    = Next (Inherited "constructor") /\
  responses (out (step (init library) (GetStatus "constructor" (Some "Bearer secret"))))
    = [(403%nat, ErrorMessage "Forbidden: Invalid access token")].
Proof. vm_compute. repeat split. Qed.

(** ** The cleanup of the upload *)

(** When the file is there, the [finally] of [/start] deletes it and
    clears the reference. *)
Lemma unlink_settles_releases s jobId job path text p :
  procs s !! jobId = Some p -> start p = AtUnlink path ->
  jobs_lookup s jobId = Some (Own job) -> disk s !! path = Some text ->
  disk (unlink_settles jobId s) !! path = None /\
  option_map filePath (heap (unlink_settles jobId s) !! jobId) = Some None /\
  option_map start (procs (unlink_settles jobId s) !! jobId) = Some Returned /\
  out (unlink_settles jobId s) = out s.
Proof.
  intros Hp Hst Hl Hd. unfold unlink_settles, unlink. rewrite Hp, Hst, Hd, Hl.
  unfold set_start, upd_proc, upd_job, set_disk; simpl.
  rewrite lookup_delete_eq, !lookup_alter_eq, Hp.
  unfold jobs_lookup in Hl. destruct (bool_decide _); [|now destruct (inherited jobId)].
  destruct (heap s !! jobId) as [j|]; [|now destruct (inherited jobId)].
  auto.
Qed.

(** C8. Where the claim fails: the upload is gone from the disk when the
    [finally] of [/start] runs. [fs.unlink] rejects, the assignment
    [jobs[jobId].filePath = null] is skipped, and the job keeps its file
    reference, after a transcription that succeeded as after one that
    failed. (Last two lines: while the analysis that the handler started
    is under way, the transcription being over, the file and the reference
    are still there.) *)
Theorem file_reference_survives_failed_unlink :
  option_map status (heap cleanup_after_success !! "job-1") = Some Transcribed /\
  disk cleanup_after_success !! "uploads/a" = None /\
  option_map filePath (heap cleanup_after_success !! "job-1") = Some (Some "uploads/a") /\
  option_map status (heap cleanup_after_failure !! "job-1") = Some Errored /\
  disk cleanup_after_failure !! "uploads/a" = None /\
  option_map filePath (heap cleanup_after_failure !! "job-1") = Some (Some "uploads/a") /\
  disk analysing !! "uploads/a" = Some "audio" /\
  option_map filePath (heap analysing !! "job-1") = Some (Some "uploads/a").
Proof. vm_compute. repeat split. Qed.

(** C9. Where the claim fails: the same runs. The rejection of
    [fs.unlink] is caught by nobody: the [/start] handler ends rejected,
    on both exit paths. At eviction the second attempt to delete the file
    fails too, and its [.catch] callback throws, the key being deleted
    already. *)
Theorem failed_unlink_escapes_the_handler :
  option_map start (procs cleanup_after_success !! "job-1") = Some Faulted /\
  hd_error (out cleanup_after_success) = Some (Unhandled "job-1") /\
  option_map start (procs cleanup_after_failure !! "job-1") = Some Faulted /\
  hd_error (out cleanup_after_failure) = Some (Unhandled "job-1") /\
  out (step cleanup_after_failure (Expire "job-1"))
    = Unhandled "job-1" :: out cleanup_after_failure.
Proof. vm_compute. repeat split. Qed.

(** ** The claims at concrete runs *)

Lemma uploaded_reachable : reachable uploaded.
Proof. apply reachable_step, reachable_init. Qed.

Lemma analysing_reachable : reachable analysing.
Proof. apply reachable_run, uploaded_reachable. Qed.

Lemma analysed_reachable : reachable analysed.
Proof. apply reachable_run, analysing_reachable. Qed.

Lemma failed_reachable : reachable failed.
Proof. apply reachable_run, uploaded_reachable. Qed.

(** C2, where the claim as stated fails: the books are selected and the
    provider returns the empty string as transcript. The transcript is
    there (it is not [null]) and the list is not empty, yet the analysis
    does not begin, nor does it when the selection is sent again. *)
Lemma empty_transcript_is_never_analysed :
  option_map transcript (heap silent !! "job-1") = Some (Some "") /\
  option_map selectedBooks (heap silent !! "job-1") = Some (JArr [book_x]) /\
  option_map status (heap silent !! "job-1") = Some Transcribed /\
  analysis_begins "job-1" (out silent) = 0%nat /\
  analysis_begins "job-1" (out (step silent select_book_x)) = 0%nat.
Proof. vm_compute. repeat split. Qed.

(** C6, where the claim as stated fails: the job that [/start] stores has
    the status [transcribing] from the start, and no status of the code is
    spelled [created]. *)
Lemma job_is_created_transcribing :
  option_map (fun j => status_string (status j)) (heap uploaded !! "job-1")
    = Some "transcribing" /\
  status_history "job-1" (out uploaded) = [Transcribing] /\
  String.eqb "transcribing" "created" = false /\
  forallb (fun st => negb (String.eqb (status_string st) "created"))
    [Transcribing; Transcribed; AnalysisStarted; Finished; Errored] = true.
Proof. vm_compute. repeat split. Qed.


(** C2 at the run [analysing]: the job is ready, its analysis has begun
    once, and nothing begins it again. *)
Lemma analysis_begins_once_witness :
  (ready job_1_analysing = true -> analysis_begins "job-1" (out analysing) = 1%nat) /\
  (forall es, (analysis_begins "job-1" (out (run analysing es)) <= 1)%nat) /\
  (already_started (status job_1_analysing) = true ->
   forall es, analysis_begins "job-1" (out (run analysing es))
              = analysis_begins "job-1" (out analysing)).
Proof.
  destruct (analysis_begins_once_when_ready analysing "job-1" job_1_analysing
              analysing_reachable eq_refl)
    as (H1 & _ & H3 & H4 & _).
  exact (conj H1 (conj H3 H4)).
Defined.

(** C3 at the end of a successful run and after a failed transcription. *)
Lemma report_present_witness :
  (analysis job_1_analysed <> None <-> status job_1_analysed = Finished) /\
  (analysis job_1_failed <> None <-> status job_1_failed = Finished).
Proof.
  split.
  - exact (proj1 (report_present_iff_finished analysed "job-1" job_1_analysed
                    analysed_reachable eq_refl)).
  - exact (proj1 (report_present_iff_finished failed "job-1" job_1_failed
                    failed_reachable eq_refl)).
Defined.

(** C5 after a failed transcription: a selection, the cleanup, a status
    poll and the eviction leave the status and the adapter calls alone. *)
Lemma error_is_final_witness :
  (exists job',
     heap (run failed [select_book_x; UnlinkSettles "job-1";
                       GetStatus "job-1" (Some "Bearer secret"); Expire "job-1"])
       !! "job-1" = Some job' /\ status job' = Errored) /\
  adapter_calls "job-1"
    (out (run failed [select_book_x; UnlinkSettles "job-1";
                      GetStatus "job-1" (Some "Bearer secret"); Expire "job-1"]))
  = adapter_calls "job-1" (out failed).
Proof.
  destruct (error_is_final failed "job-1" job_1_failed
              [select_book_x; UnlinkSettles "job-1";
               GetStatus "job-1" (Some "Bearer secret"); Expire "job-1"]
              failed_reachable eq_refl eq_refl)
    as (H1 & H2 & _).
  exact (conj H1 H2).
Defined.

(** C6 at the end of a successful run. *)
Lemma status_moves_forward_witness :
  exists older,
    status_history "job-1" (out analysed) = status job_1_analysed :: older /\
    forward (status job_1_analysed :: older) = true /\
    NoDup (status job_1_analysed :: older) /\
    last (status job_1_analysed :: older) = Some Transcribing.
Proof.
  exact (proj1 (proj2 (status_moves_forward analysed analysed_reachable))
           "job-1" job_1_analysed eq_refl).
Defined.


(** * More properties of the code *)

(** ** [Gemini.getResponse]: the order of the credentials *)

Lemma attempts_first_success g pre k post text i n :
  (forall x, In x pre -> exists m, g x = Gemini.Failed m) ->
  g k = Gemini.Generated text ->
  (i + length (pre ++ k :: post) = n)%nat ->
  fst (Gemini.attempts g (pre ++ k :: post) i n) =
    Some {| Gemini.response := text; Gemini.error := None |} /\
  List.map fst (snd (Gemini.attempts g (pre ++ k :: post) i n)) = seq (S i) (length pre) /\
  Forall2 (fun x w => g x = Gemini.Failed (snd w)) pre
    (snd (Gemini.attempts g (pre ++ k :: post) i n)).
Proof.
  revert i. induction pre as [|x pre IH]; intros i Hall Hk Hlen.
  - simpl. rewrite Hk. simpl. repeat split. constructor.
  - destruct (Hall x (or_introl eq_refl)) as [m Hm].
    simpl Gemini.attempts. rewrite Hm.
    replace (Nat.eqb i (n - 1)) with false
      by (symmetry; apply Nat.eqb_neq; simpl in Hlen; rewrite length_app in Hlen;
          simpl in Hlen; lia).
    destruct (IH (S i)) as (H1 & H2 & H3).
    + intros y Hy. apply Hall. now right.
    + exact Hk.
    + simpl in Hlen. lia.
    + simpl. rewrite H1, H2. repeat split. constructor; [exact Hm|exact H3].
Qed.

Lemma attempts_all_tried g rest i n :
  rest <> [] -> (i + length rest = n)%nat ->
  (forall k, In k rest -> exists m, g k = Gemini.Failed m) ->
  List.map fst (snd (Gemini.attempts g rest i n)) = seq (S i) (length rest) /\
  Forall2 (fun x w => g x = Gemini.Failed (snd w)) rest (snd (Gemini.attempts g rest i n)).
Proof.
  revert i. induction rest as [|k rest IH]; intros i Hne Hlen Hall; [congruence|].
  destruct (Hall k (or_introl eq_refl)) as [m Hm].
  simpl Gemini.attempts. rewrite Hm.
  destruct rest as [|k' rest'].
  - simpl in Hlen. replace (Nat.eqb i (n - 1)) with true
      by (symmetry; apply Nat.eqb_eq; lia).
    simpl. split; [reflexivity|]. repeat constructor. exact Hm.
  - replace (Nat.eqb i (n - 1)) with false
      by (symmetry; apply Nat.eqb_neq; simpl in Hlen; lia).
    destruct (IH (S i)) as (H1 & H2).
    + discriminate.
    + simpl in *. lia.
    + intros x Hx. apply Hall. now right.
    + cbn [fst snd List.map]. rewrite H1. split; [reflexivity|].
      constructor; [exact Hm|exact H2].
Qed.

(** X1. [getResponse] returns the answer of the first credential that
    answers: when the keys before it all fail, the result is its text with
    [error: null], and the warnings are those of the failed keys, in order
    and numbered from 1; what the later keys would do plays no part. *)
Theorem getResponse_first_answer_wins
    (c : Gemini.client) (g : string -> Gemini.attempt)
    (pre : list string) (k : string) (post : list string) (text : option string) :
  Gemini.keys c = (pre ++ k :: post)%list ->
  (forall x, In x pre -> exists m, g x = Gemini.Failed m) ->
  g k = Gemini.Generated text ->
  fst (Gemini.getResponse c g)
    = Some {| Gemini.response := text; Gemini.error := None |} /\
  List.map fst (snd (Gemini.getResponse c g)) = seq 1 (length pre) /\
  Forall2 (fun x w => g x = Gemini.Failed (snd w)) pre (snd (Gemini.getResponse c g)).
Proof.
  intros Hk Hall Hg. unfold Gemini.getResponse. rewrite Hk.
  now apply attempts_first_success.
Qed.

(** X2. When every credential of a pool that is not empty fails,
    [getResponse] has tried each one exactly once, in order (one warning
    per key, numbered from 1), and returns [response: null] with the
    message of the last key after the prefix ['Gemini API error: ']. *)
Theorem getResponse_exhausts_the_pool
    (c : Gemini.client) (g : string -> Gemini.attempt) :
  Gemini.keys c <> [] ->
  (forall k, In k (Gemini.keys c) -> exists m, g k = Gemini.Failed m) ->
  (exists m, g (List.last (Gemini.keys c) "") = Gemini.Failed m /\
             fst (Gemini.getResponse c g) =
             Some {| Gemini.response := None;
                     Gemini.error := Some ("Gemini API error: " ++ m) |}) /\
  List.map fst (snd (Gemini.getResponse c g)) = seq 1 (length (Gemini.keys c)) /\
  Forall2 (fun x w => g x = Gemini.Failed (snd w)) (Gemini.keys c)
    (snd (Gemini.getResponse c g)).
Proof.
  intros Hne Hall. unfold Gemini.getResponse. split.
  - now apply attempts_exhausted.
  - now apply attempts_all_tried.
Qed.

Lemma attempts_shape g rest i n r :
  fst (Gemini.attempts g rest i n) = Some r ->
  (exists k text, In k rest /\ g k = Gemini.Generated text /\
                  r = {| Gemini.response := text; Gemini.error := None |}) \/
  (exists k m, In k rest /\ g k = Gemini.Failed m /\
               r = {| Gemini.response := None;
                      Gemini.error := Some ("Gemini API error: " ++ m) |}).
Proof.
  revert i. induction rest as [|k rest IH]; intros i; simpl; [discriminate|].
  destruct (g k) as [text|m] eqn:Hk; simpl.
  - intros [= <-]. left. exists k, text. auto.
  - destruct (Nat.eqb i (n - 1)); simpl.
    + intros [= <-]. right. exists k, m. auto.
    + intros H. destruct (IH _ H) as [(k' & t & Hin & Hg & ->)|(k' & m' & Hin & Hg & ->)];
        [left; exists k', t|right; exists k', m']; auto.
Qed.

(** X3. The constructor rejects an empty pool, and a client it has built
    never makes [getResponse] fall out of its loop. The object it returns
    is either what one credential of the pool generated, with
    [error: null], or [response: null] with the message of a credential
    that failed: never a response and an error together. *)
Theorem constructed_client_always_returns
    (pool : list string) (t : option string) (b : list (option json * string))
    (g : string -> Gemini.attempt) :
  (pool = [] -> Gemini.construct pool t b = None) /\
  (forall c, Gemini.construct pool t b = Some c ->
     Gemini.keys c = pool /\ Gemini.transcript c = t /\ Gemini.books c = b /\
     exists r, fst (Gemini.getResponse c g) = Some r /\
       ((exists k text, In k pool /\ g k = Gemini.Generated text /\
                        r = {| Gemini.response := text; Gemini.error := None |}) \/
        (exists k m, In k pool /\ g k = Gemini.Failed m /\
                     r = {| Gemini.response := None;
                            Gemini.error := Some ("Gemini API error: " ++ m) |}))).
Proof.
  split; [intros ->; reflexivity|].
  intros c. unfold Gemini.construct. destruct pool as [|k pool]; [discriminate|].
  simpl. intros [= <-]. simpl. repeat split.
  destruct (fst (Gemini.getResponse
                   {| Gemini.keys := k :: pool; Gemini.transcript := t;
                      Gemini.books := b |} g)) as [r|] eqn:Hr.
  - exists r. split; [reflexivity|]. unfold Gemini.getResponse in Hr.
    exact (attempts_shape _ _ _ _ _ Hr).
  - exfalso. revert Hr. apply getResponse_returns. discriminate.
Qed.

(** ** The prompt of [Gemini] *)

Lemma render_objects_length {A B : Type} (l : list A) (l' : list B) :
  length l = length l' -> render_objects l = render_objects l'.
Proof.
  revert l'. induction l as [|x l IH]; intros [|y l'] H; try discriminate; [reflexivity|].
  simpl in H. injection H as H. specialize (IH l' H).
  destruct l, l'; try discriminate; [reflexivity|].
  simpl in *. now rewrite IH.
Qed.

(** X4. The prompt that the constructor builds holds the transcript, but
    of the books only their number: the array of [{ title, text }] objects
    is interpolated as it is, so each book renders as ["[object Object]"],
    and two selections of the same size give the same prompt. *)
Theorem prompt_ignores_book_contents
    (instructions between closing : string) (c c' : Gemini.client) :
  Gemini.transcript c = Gemini.transcript c' ->
  length (Gemini.books c) = length (Gemini.books c') ->
  input instructions between closing c = input instructions between closing c'.
Proof.
  intros Ht Hb. unfold input. rewrite Ht.
  now rewrite (render_objects_length (Gemini.books c) (Gemini.books c') Hb).
Qed.

(** ** [Transcript.generate]: what decides *)

(** X5. The reason that [generate] puts into its error is never empty: it
    is [failure_detail] when that is a non-empty string, else [failure]
    when that is one, else the text ['unknown reason']. *)
Theorem reason_is_never_empty (d : Transcript.JobDetails) :
  Transcript.reason d <> "" /\
  (truthy_str (Transcript.failure_detail d) = true ->
   Some (Transcript.reason d) = Transcript.failure_detail d) /\
  (truthy_str (Transcript.failure_detail d) = false ->
   truthy_str (Transcript.failure d) = true ->
   Some (Transcript.reason d) = Transcript.failure d) /\
  (truthy_str (Transcript.failure_detail d) = false ->
   truthy_str (Transcript.failure d) = false ->
   Transcript.reason d = "unknown reason").
Proof.
  unfold Transcript.reason, or_str.
  destruct (Transcript.failure_detail d) as [a|] eqn:Ea;
    destruct (Transcript.failure d) as [b|] eqn:Eb; simpl;
    repeat (match goal with
            | |- context [String.eqb ?x ""] => destruct (String.eqb_spec x "")
            end; simpl);
    repeat split; intros; try congruence; try discriminate.
Qed.

Section Decisive.
Import Transcript.
Variable client : RevAiApiClient.
Variable timeoutS : Z.
Variable jobid : string.

(** The loop ends at the first poll that the provider answers with a
    terminal status or not at all, if that poll comes before the timeout
    guard fires. *)
Lemma poll_decides k : forall n elapsed x,
  (forall i, (i < k)%nat -> pending_at client jobid (n + i) = true) ->
  (k < polls_left timeoutS elapsed)%nat ->
  poll_exit_at jobid (getJobDetails client jobid (n + k)) = Some x ->
  snd (poll client timeoutS jobid n elapsed) = x /\
  length (fst (poll client timeoutS jobid n elapsed)) = S k.
Proof.
  induction k as [|k IH]; intros n elapsed x Hp Hk Hx.
  - rewrite Nat.add_0_r in Hx. unfold poll_exit_at in Hx.
    simp poll. destruct (getJobDetails client jobid n) as [d|]; simp poll.
    + rewrite Hx. simp poll. simpl. auto.
    + injection Hx as <-. simpl. auto.
  - pose proof (Hp 0%nat ltac:(lia)) as H0. rewrite Nat.add_0_r in H0.
    apply pending_at_spec in H0 as (d & Hd & He).
    assert (Hgo : elapsed + 7 <= timeoutS).
    { destruct (Z_gt_le_dec (elapsed + 7) timeoutS) as [Hgt|Hle]; [|exact Hle].
      rewrite (polls_left_stop timeoutS elapsed Hgt) in Hk. lia. }
    rewrite (polls_left_go timeoutS elapsed Hgo) in Hk.
    destruct (IH (S n) (elapsed + 7) x) as [E1 E2].
    + intros i Hi. replace (S n + i)%nat with (n + S i)%nat by lia. apply Hp. lia.
    + lia.
    + replace (S n + k)%nat with (n + S k)%nat by lia. exact Hx.
    + simp poll. rewrite Hd. simp poll. rewrite He. simp poll.
      change (POLL_MS / 1000) with 7.
      destruct (Z_gt_le_dec (elapsed + 7) timeoutS) as [Hgt|Hle]; [lia|].
      simp poll. simp poll in E1. simp poll in E2. simpl.
      split; [exact E1|f_equal; exact E2].
Qed.
End Decisive.

Lemma hard_failure_not_transcribed st :
  Transcript.hard_failure st = true -> String.eqb st "transcribed" = false.
Proof.
  intros H. destruct (String.eqb_spec st "transcribed") as [->|]; [|reflexivity].
  discriminate.
Qed.

(** X6. [generate] resolves at the first poll that reports [transcribed],
    with the text that [getTranscriptText] then returns, after exactly that
    many polls; the success test comes before the timeout guard, so this
    holds up to and including the poll at which the counter passes the
    deadline. When fetching the text fails, [generate] rejects. *)
Theorem generate_resolves_at_first_transcribed
    (client : Transcript.RevAiApiClient) (timeoutS : Z) (filePath jobid : string)
    (k : nat) (d : Transcript.JobDetails) :
  Transcript.submitJobLocalFile client filePath = Some jobid ->
  (forall i, (i < k)%nat -> Transcript.pending_at client jobid i = true) ->
  (k < Transcript.max_polls timeoutS)%nat ->
  Transcript.getJobDetails client jobid k = Some d ->
  Transcript.status d = "transcribed" ->
  fst (Transcript.generate client timeoutS filePath)
    = match Transcript.getTranscriptText client jobid with
      | Some text => Transcript.Resolved text
      | None => Transcript.Rejected Transcript.SdkError
      end /\
  length (snd (Transcript.generate client timeoutS filePath)) = S k.
Proof.
  intros Hs Hp Hk Hd Hst.
  destruct (poll_decides client timeoutS jobid k 0 0 Transcript.Break) as [E1 E2].
  - exact Hp.
  - exact Hk.
  - simpl. rewrite Hd. simpl. unfold Transcript.status_exit. now rewrite Hst.
  - unfold Transcript.generate. rewrite Hs. simpl. rewrite E1.
    destruct (Transcript.getTranscriptText client jobid); simpl; auto.
Qed.

(** X7. [generate] rejects at the first poll that reports [failed],
    [revoked] or [error], after exactly that many polls and without
    fetching any text; its error names the provider's job, that status and
    the reason. *)
Theorem generate_rejects_at_first_hard_failure
    (client : Transcript.RevAiApiClient) (timeoutS : Z) (filePath jobid : string)
    (k : nat) (d : Transcript.JobDetails) :
  Transcript.submitJobLocalFile client filePath = Some jobid ->
  (forall i, (i < k)%nat -> Transcript.pending_at client jobid i = true) ->
  (k < Transcript.max_polls timeoutS)%nat ->
  Transcript.getJobDetails client jobid k = Some d ->
  Transcript.hard_failure (Transcript.status d) = true ->
  Transcript.generate client timeoutS filePath
    = (Transcript.Rejected
         (Transcript.EndedWithStatus jobid (Transcript.status d) (Transcript.reason d)),
       snd (Transcript.generate client timeoutS filePath)) /\
  length (snd (Transcript.generate client timeoutS filePath)) = S k.
Proof.
  intros Hs Hp Hk Hd Hf.
  destruct (poll_decides client timeoutS jobid k 0 0
              (Transcript.Throw (Transcript.EndedWithStatus jobid (Transcript.status d)
                                   (Transcript.reason d)))) as [E1 E2].
  - exact Hp.
  - exact Hk.
  - simpl. rewrite Hd. simpl. unfold Transcript.status_exit.
    now rewrite (hard_failure_not_transcribed _ Hf), Hf.
  - unfold Transcript.generate. rewrite Hs. simpl. rewrite E1. simpl. auto.
Qed.

(** X8. A call of the SDK that rejects ends [generate] at once: when the
    submission rejects, nothing is polled; when a poll rejects, no further
    poll is made. *)
Theorem generate_stops_on_sdk_rejection
    (client : Transcript.RevAiApiClient) (timeoutS : Z) (filePath : string) :
  (Transcript.submitJobLocalFile client filePath = None ->
   Transcript.generate client timeoutS filePath
     = (Transcript.Rejected Transcript.SdkError, [])) /\
  (forall jobid k,
     Transcript.submitJobLocalFile client filePath = Some jobid ->
     (forall i, (i < k)%nat -> Transcript.pending_at client jobid i = true) ->
     (k < Transcript.max_polls timeoutS)%nat ->
     Transcript.getJobDetails client jobid k = None ->
     fst (Transcript.generate client timeoutS filePath)
       = Transcript.Rejected Transcript.SdkError /\
     length (snd (Transcript.generate client timeoutS filePath)) = S k).
Proof.
  split.
  - intros Hs. unfold Transcript.generate. now rewrite Hs.
  - intros jobid k Hs Hp Hk Hd.
    destruct (poll_decides client timeoutS jobid k 0 0
                (Transcript.Throw Transcript.SdkError)) as [E1 E2].
    + exact Hp.
    + exact Hk.
    + simpl. now rewrite Hd.
    + unfold Transcript.generate. rewrite Hs. simpl. rewrite E1. simpl. auto.
Qed.

Lemma getResponse_first_answer_witness :
  fst (Gemini.getResponse
         {| Gemini.keys := Gemini.apiKeys; Gemini.transcript := Some "hello";
            Gemini.books := [] |}
         (fun k => if String.eqb k "key 3" then Gemini.Generated (Some "{}")
                   else Gemini.Failed "quota exceeded"))
    = Some {| Gemini.response := Some "{}"; Gemini.error := None |} /\
  List.map fst
    (snd (Gemini.getResponse
            {| Gemini.keys := Gemini.apiKeys; Gemini.transcript := Some "hello";
               Gemini.books := [] |}
            (fun k => if String.eqb k "key 3" then Gemini.Generated (Some "{}")
                      else Gemini.Failed "quota exceeded")))
    = [1%nat; 2%nat].
Proof.
  destruct (getResponse_first_answer_wins
              {| Gemini.keys := Gemini.apiKeys; Gemini.transcript := Some "hello";
                 Gemini.books := [] |}
              (fun k => if String.eqb k "key 3" then Gemini.Generated (Some "{}")
                        else Gemini.Failed "quota exceeded")
              ["key 1"; "key 2"] "key 3" ["key 4"; "key 5"; "key 6"] (Some "{}")
              eq_refl) as (H1 & H2 & _).
  - intros x [<-|[<-|[]]]; eexists; reflexivity.
  - reflexivity.
  - exact (conj H1 H2).
Defined.

Lemma getResponse_exhausts_witness :
  List.map fst
    (snd (Gemini.getResponse
            {| Gemini.keys := Gemini.apiKeys; Gemini.transcript := Some "hello";
               Gemini.books := [] |}
            (fun _ => Gemini.Failed "quota exceeded")))
    = seq 1 6.
Proof.
  exact (proj1 (proj2 (getResponse_exhausts_the_pool
           {| Gemini.keys := Gemini.apiKeys; Gemini.transcript := Some "hello";
              Gemini.books := [] |}
           (fun _ => Gemini.Failed "quota exceeded")
           ltac:(discriminate)
           (fun k _ => ex_intro _ "quota exceeded" eq_refl)))).
Defined.

Lemma prompt_ignores_witness :
  input "A" "B" "C"
    {| Gemini.keys := Gemini.apiKeys; Gemini.transcript := Some "hello";
       Gemini.books := [(Some (JStr "Book X"), "the text of Book X")] |}
  = input "A" "B" "C"
    {| Gemini.keys := Gemini.apiKeys; Gemini.transcript := Some "hello";
       Gemini.books := [(None, "")] |}.
Proof.
  exact (prompt_ignores_book_contents "A" "B" "C" _ _ eq_refl eq_refl).
Defined.

Lemma generate_resolves_witness :
  fst (Transcript.generate (client_after 128 details_transcribed (Some "hello")) 900
         "uploads/a") = Transcript.Resolved "hello" /\
  length (snd (Transcript.generate (client_after 128 details_transcribed (Some "hello"))
                 900 "uploads/a")) = 129%nat.
Proof.
  apply (generate_resolves_at_first_transcribed
           (client_after 128 details_transcribed (Some "hello")) 900 "uploads/a" "rev-1"
           128 details_transcribed eq_refl).
  - intros i Hi. unfold Transcript.pending_at, client_after. simpl.
    apply Nat.ltb_lt in Hi. now rewrite Hi.
  - vm_compute. lia.
  - reflexivity.
  - reflexivity.
Defined.

Lemma generate_rejects_witness :
  Transcript.generate (client_after 2 details_revoked None) 900 "uploads/a"
    = (Transcript.Rejected (Transcript.EndedWithStatus "rev-1" "revoked" "quota"),
       snd (Transcript.generate (client_after 2 details_revoked None) 900 "uploads/a")) /\
  length (snd (Transcript.generate (client_after 2 details_revoked None) 900 "uploads/a"))
    = 3%nat.
Proof.
  apply (generate_rejects_at_first_hard_failure
           (client_after 2 details_revoked None) 900 "uploads/a" "rev-1"
           2 details_revoked eq_refl).
  - intros i Hi. unfold Transcript.pending_at, client_after. simpl.
    apply Nat.ltb_lt in Hi. now rewrite Hi.
  - vm_compute. lia.
  - reflexivity.
  - reflexivity.
Defined.

(** ** Job objects over time *)

Lemma evolves_refl j : evolves j j.
Proof. unfold evolves. auto. Qed.

Lemma evolves_trans j1 j2 j3 : evolves j1 j2 -> evolves j2 j3 -> evolves j1 j3.
Proof.
  unfold evolves. intros (Hi & Ha & Hf) (Hi' & Ha' & Hf').
  repeat split; try congruence.
  destruct Hf' as [->| ->]; auto.
Qed.

Ltac unfold_state :=
  unfold set_status, upd_job, upd_proc, emit, set_disk in *.

Ltac heap_lookup a :=
  repeat match goal with
  | |- context [alter _ ?b _ !! a] =>
      first [ rewrite lookup_alter_eq
            | rewrite (lookup_alter_ne _ _ b a) by congruence ]
  | |- context [(<[?b := _]> _) !! a] =>
      first [ rewrite lookup_insert_eq
            | rewrite (lookup_insert_ne _ b a) by congruence ]
  end.

Ltac job_cases a Hh :=
  unfold_handlers; unfold_state; repeat case_match; simpl;
  heap_lookup a;
  repeat match goal with H : heap _ !! a = Some _ |- _ => rewrite H end;
  simplify_eq; simpl;
  try (eexists; split; [reflexivity|]; simpl; split; [auto|];
       first [ left; split; [reflexivity|]; first [ now auto | discriminate ]
             | right; split; [reflexivity|]; eexists; split; [reflexivity|]; now auto ]).

Lemma job_post_start b tok file s a j :
  heap s !! a = Some j ->
  exists j', heap (post_start b tok file s) !! a = Some j' /\ evolves j j' /\ error_step j j'.
Proof.
  intros Hh. unfold evolves, error_step, error_messages.
  destruct (decide (b = a)) as [->|Hne].
  - unfold post_start, fresh. rewrite Hh. destruct file as [[]|]; simpl; eauto 10.
  - job_cases a Hh.
Qed.

Lemma job_start_resumes b s a j :
  heap s !! a = Some j ->
  exists j', heap (start_resumes b s) !! a = Some j' /\ evolves j j' /\ error_step j j'.
Proof.
  intros Hh. unfold evolves, error_step, error_messages.
  destruct (decide (b = a)) as [->|Hne]; job_cases a Hh.
Qed.

Lemma job_unlink_settles b s a j :
  heap s !! a = Some j ->
  exists j', heap (unlink_settles b s) !! a = Some j' /\ evolves j j' /\ error_step j j'.
Proof.
  intros Hh. unfold evolves, error_step, error_messages.
  destruct (decide (b = a)) as [->|Hne]; job_cases a Hh.
Qed.

Lemma job_read_settles b s a j :
  heap s !! a = Some j ->
  exists j', heap (read_settles b s) !! a = Some j' /\ evolves j j' /\ error_step j j'.
Proof.
  intros Hh. unfold evolves, error_step, error_messages.
  destruct (decide (b = a)) as [->|Hne]; job_cases a Hh.
Qed.

Lemma job_response_settles b g s a j :
  heap s !! a = Some j ->
  exists j', heap (response_settles b g s) !! a = Some j' /\ evolves j j' /\ error_step j j'.
Proof.
  intros Hh. unfold evolves, error_step, error_messages.
  destruct (decide (b = a)) as [->|Hne]; job_cases a Hh.
Qed.

Lemma job_get_status b h s a j :
  heap s !! a = Some j ->
  exists j', heap (get_status b h s) !! a = Some j' /\ evolves j j' /\ error_step j j'.
Proof.
  intros Hh. unfold evolves, error_step, error_messages.
  job_cases a Hh.
Qed.

Lemma job_expire b s a j :
  heap s !! a = Some j ->
  exists j', heap (expire b s) !! a = Some j' /\ evolves j j' /\ error_step j j'.
Proof.
  intros Hh. unfold evolves, error_step, error_messages.
  job_cases a Hh.
Qed.

Lemma error_step_after j1 j2 j3 :
  error j2 = error j1 -> (status j2 = Errored -> status j1 = Errored) ->
  error_step j2 j3 -> error_step j1 j3.
Proof.
  unfold error_step. intros He Hs [[E1 E2]|E]; [left|now right].
  split; [congruence|auto].
Qed.

Lemma heap_getAnalysis b s :
  heap (getAnalysis b s) = heap s \/
  heap (getAnalysis b s)
    = alter (with_error (Some "An error occurred during AI analysis.")) b
        (alter (with_status Errored) b (heap s)).
Proof.
  unfold getAnalysis. destruct (jobs_lookup s b) as [[job|name]|]; auto.
  destruct (selectedBooks job); auto.
Qed.

Lemma heap_tryStartAnalysis b s :
  heap (tryStartAnalysis b s).1 = heap s \/
  heap (tryStartAnalysis b s).1 = alter (with_status AnalysisStarted) b (heap s) \/
  heap (tryStartAnalysis b s).1
    = alter (with_error (Some "An error occurred during AI analysis.")) b
        (alter (with_status Errored) b
           (alter (with_status AnalysisStarted) b (heap s))).
Proof.
  unfold tryStartAnalysis. destruct (jobs_lookup s b) as [[job|name]|]; auto.
  destruct (already_started (status job)); auto.
  destruct (truthy_str (transcript job) && nonempty_array (selectedBooks job)); auto.
  cbn [fst]. destruct (heap_getAnalysis b (set_status b AnalysisStarted s)) as [-> | ->]; auto.
Qed.

Ltac job_done :=
  eexists; split; [reflexivity|]; simpl; split; [auto|];
  first [ left; split; [reflexivity|]; first [ now auto | discriminate ]
        | right; split; [reflexivity|]; eexists; split; [reflexivity|]; now auto ].

Lemma job_tryStartAnalysis b s a j :
  heap s !! a = Some j ->
  exists j', heap (tryStartAnalysis b s).1 !! a = Some j' /\ evolves j j' /\ error_step j j'.
Proof.
  intros Hh. unfold evolves, error_step, error_messages.
  destruct (heap_tryStartAnalysis b s) as [-> | [-> | ->]];
    (destruct (decide (b = a)) as [->|Hne]; heap_lookup a; rewrite Hh; job_done).
Qed.

Lemma job_start_catch b s a j :
  heap s !! a = Some j ->
  exists j', heap (start_catch b s) !! a = Some j' /\ evolves j j' /\ error_step j j'.
Proof.
  intros Hh. unfold evolves, error_step, error_messages.
  destruct (decide (b = a)) as [->|Hne]; job_cases a Hh.
Qed.

Lemma heap_start_finally b s : heap (start_finally b s) = heap s.
Proof. unfold start_finally, set_start. repeat case_match; reflexivity. Qed.

Lemma job_then (f : Job -> Job) (k : State -> State) b s s1 a j :
  heap s1 = alter f b (heap s) ->
  (forall x, evolves x (f x) /\ error (f x) = error x /\
             (status (f x) = Errored -> status x = Errored)) ->
  (forall j0, heap s1 !! a = Some j0 ->
     exists j', heap (k s1) !! a = Some j' /\ evolves j0 j' /\ error_step j0 j') ->
  heap s !! a = Some j ->
  exists j', heap (k s1) !! a = Some j' /\ evolves j j' /\ error_step j j'.
Proof.
  intros Hs1 Hf Hk Hh.
  destruct (decide (b = a)) as [->|Hne].
  - destruct (Hk (f j)) as (j' & H1 & H2 & H3).
    { now rewrite Hs1, lookup_alter_eq, Hh. }
    destruct (Hf j) as (F1 & F2 & F3).
    exists j'. split; [exact H1|]. split; [eapply evolves_trans; eauto|].
    eapply error_step_after; [exact F2 | exact F3 | exact H3].
  - apply Hk. now rewrite Hs1, lookup_alter_ne.
Qed.

Lemma tryStartAnalysis_threw b s : (tryStartAnalysis b s).2 = true -> (tryStartAnalysis b s).1 = s.
Proof.
  unfold tryStartAnalysis. destruct (jobs_lookup s b) as [[job|name]|]; auto.
  destruct (already_started (status job)); auto.
  destruct (truthy_str (transcript job) && nonempty_array (selectedBooks job)); auto.
  discriminate.
Qed.

Lemma job_post_booksselection b h v s a j :
  heap s !! a = Some j ->
  exists j', heap (post_booksselection b h v s) !! a = Some j' /\ evolves j j' /\ error_step j j'.
Proof.
  intros Hh. unfold post_booksselection.
  destruct (authorizeJob s b h) as [| |[job|name]].
  1, 2: exists j; split; [exact Hh|]; split; [apply evolves_refl|]; left; auto.
  - apply (job_then (with_selectedBooks (selected_or_empty v))
             (fun s0 => let r := tryStartAnalysis b s0 in
                        if r.2 then emit (Unhandled b) r.1 else r.1)
             b s (emit (Respond 200 PlainOK)
                    (upd_job b (with_selectedBooks (selected_or_empty v)) s)));
      [reflexivity| | |exact Hh].
    + intros x. unfold evolves. simpl. auto.
    + intros j0 H0. cbv zeta.
      destruct (job_tryStartAnalysis b _ a j0 H0) as (j' & H1 & H2).
      exists j'. split; [|exact H2]. now destruct (_.2).
  - cbv zeta.
    destruct (job_tryStartAnalysis b (emit (Respond 200 PlainOK) s) a j Hh)
      as (j' & H1 & H2).
    exists j'. split; [|exact H2]. now destruct (_.2).
Qed.

Lemma job_generate_settles b client s a j :
  heap s !! a = Some j ->
  exists j', heap (generate_settles b client s) !! a = Some j' /\ evolves j j' /\ error_step j j'.
Proof.
  intros Hh. unfold generate_settles.
  assert (Hsame : exists j', heap s !! a = Some j' /\ evolves j j' /\ error_step j j').
  { exists j. split; [exact Hh|]. split; [apply evolves_refl|]. left; auto. }
  assert (Hcatch : exists j', heap (start_finally b (start_catch b s)) !! a = Some j'
                              /\ evolves j j' /\ error_step j j').
  { rewrite heap_start_finally. now apply job_start_catch. }
  destruct (procs s !! b) as [p|]; [|exact Hsame].
  destruct (start p) as [path| | | |]; try exact Hsame.
  destruct (Transcript.generate client Transcript.default_timeoutS path).1 as [t|err];
    [|exact Hcatch].
  destruct (jobs_lookup s b) as [[job|name]|]; try exact Hcatch.
  cbv zeta.
  apply (job_then (fun x => with_status Transcribed (with_transcript (Some t) x))
           (fun s1 => if (tryStartAnalysis b s1).2
                      then start_finally b (start_catch b (tryStartAnalysis b s1).1)
                      else set_start b (AtTryStart (negb (awaiting b (tryStartAnalysis b s1).1)))
                             (tryStartAnalysis b s1).1)
           b s (set_status b Transcribed (upd_job b (with_transcript (Some t)) s)));
    [| | |exact Hh].
  - unfold set_status, upd_job; simpl. now rewrite alter_alter_eq.
  - intros x. unfold evolves. simpl. split; [auto|]. split; [auto|discriminate].
  - intros j0 H0.
    destruct (tryStartAnalysis b _).2 eqn:Ethrew.
    + rewrite (tryStartAnalysis_threw _ _ Ethrew), heap_start_finally.
      now apply job_start_catch.
    + now apply job_tryStartAnalysis.
Qed.

(** One event keeps every job object, and changes it within [evolves] and
    [error_step]. *)
Lemma step_job s e a j :
  heap s !! a = Some j ->
  exists j', heap (step s e) !! a = Some j' /\ evolves j j' /\ error_step j j'.
Proof.
  intros Hh. destruct e; simpl.
  - now apply job_post_start.
  - now apply job_generate_settles.
  - now apply job_start_resumes.
  - now apply job_unlink_settles.
  - now apply job_read_settles.
  - now apply job_response_settles.
  - now apply job_post_booksselection.
  - now apply job_get_status.
  - now apply job_expire.
  - exists j. split; [exact Hh|]. split; [apply evolves_refl|]. left; auto.
Qed.

(** An event about one job leaves every other job as it is. *)
Lemma frame_step s e b :
  match e with
  | PostStart a _ _ | GenerateSettles a _ | StartResumes a | UnlinkSettles a
  | ReadSettles a | ResponseSettles a _ | PostBooksSelection a _ _ | Expire a => a <> b
  | GetStatus _ _ | DiskRemoved _ => True
  end ->
  view (step s e) b = view s b.
Proof.
  destruct e; simpl; intros H.
  - now apply frame_post_start.
  - now apply frame_generate.
  - now apply frame_start_resumes.
  - now apply frame_unlink_settles.
  - now apply frame_read_settles.
  - now apply frame_response_settles.
  - now apply frame_post_booksselection.
  - apply frame_get_status.
  - now apply frame_expire.
  - apply view_set_disk.
Qed.

(** A job object comes into being by [/start] only. *)
Lemma step_new s e a j' :
  Inv s -> heap s !! a = None -> heap (step s e) !! a = Some j' ->
  fresh s a = true /\ a ∈ keys (step s e) /\
  exists tok path content,
    e = PostStart a tok (Some (path, content)) /\
    j' = {| id := a; status := Transcribing; transcript := None; analysis := None;
            selectedBooks := JArr []; filePath := Some path; error := None;
            accessToken := tok |}.
Proof.
  intros HI Hn Hs.
  assert (Hp : procs s !! a = None).
  { pose proof (HI a) as Hok. unfold view_ok, view in Hok. rewrite Hn in Hok.
    now destruct (procs s !! a). }
  assert (Hl : forall job, jobs_lookup s a <> Some (Own job)).
  { intros job. unfold jobs_lookup. rewrite Hn.
    destruct (bool_decide _), (inherited a); discriminate. }
  assert (Hframe : view (step s e) a = view s a -> False).
  { intros E. apply (f_equal (fun v => v.1.1.1.1)) in E. simpl in E. congruence. }
  destruct e as [b tok file|b client|b|b|b|b g|b h v|b h|b|path];
    try (exfalso; apply Hframe, frame_step; exact I);
    (destruct (decide (b = a)) as [->|Hne];
     [|exfalso; apply Hframe, frame_step; exact Hne]); simpl in Hs.
  - simpl. unfold post_start in *. destruct file as [[path content]|]; [|simpl in Hs; congruence].
    destruct (fresh s a) eqn:Ef; [|congruence]. simpl in Hs.
    rewrite lookup_insert_eq in Hs. injection Hs as <-.
    split; [reflexivity|]. split; [simpl; set_solver|]. eauto.
  - unfold generate_settles in Hs. rewrite Hp in Hs. congruence.
  - unfold start_resumes in Hs. rewrite Hp in Hs. congruence.
  - unfold unlink_settles in Hs. rewrite Hp in Hs. congruence.
  - unfold read_settles in Hs. rewrite Hp in Hs. congruence.
  - unfold response_settles in Hs. rewrite Hp in Hs. congruence.
  - exfalso. unfold post_booksselection, authorizeJob in Hs.
    destruct (jobs_lookup s a) as [[job|name]|] eqn:El; [now apply (Hl job)| |simpl in Hs; congruence].
    destruct (_ || _); [simpl in Hs; congruence|].
    unfold tryStartAnalysis in Hs. unfold jobs_lookup in Hs, El. simpl in Hs.
    rewrite Hn in Hs, El. 
    destruct (bool_decide (a ∈ keys s)), (inherited a); simpl in Hs; congruence.
  - unfold expire in Hs. rewrite Hp in Hs. congruence.
Qed.

Lemma keys_tryStartAnalysis b s : keys (tryStartAnalysis b s).1 = keys s.
Proof. unfold_handlers. repeat case_match; reflexivity. Qed.

(** An id becomes a key of [jobs] by [/start] only, and only when it is
    fresh. *)
Lemma step_keys s e a : a ∈ keys (step s e) -> a ∈ keys s \/ fresh s a = true.
Proof.
  destruct e as [b tok file|b client|b|b|b|b g|b h v|b h|b|path]; simpl.
  - unfold post_start. destruct file as [[path content]|]; [|auto].
    destruct (fresh s b) eqn:Ef; [|auto]. simpl.
    destruct (decide (b = a)) as [->|Hne]; [auto|]. set_solver.
  - assert (E : keys (generate_settles b client s) = keys s)
      by (unfold_handlers; repeat case_match; reflexivity).
    rewrite E; auto.
  - assert (E : keys (start_resumes b s) = keys s)
      by (unfold_handlers; repeat case_match; reflexivity).
    rewrite E; auto.
  - assert (E : keys (unlink_settles b s) = keys s)
      by (unfold_handlers; repeat case_match; reflexivity).
    rewrite E; auto.
  - assert (E : keys (read_settles b s) = keys s)
      by (unfold_handlers; repeat case_match; reflexivity).
    rewrite E; auto.
  - assert (E : keys (response_settles b g s) = keys s)
      by (unfold_handlers; repeat case_match; reflexivity).
    rewrite E; auto.
  - assert (E : keys (post_booksselection b h v s) = keys s)
      by (unfold_handlers; repeat case_match; reflexivity).
    rewrite E; auto.
  - assert (E : keys (get_status b h s) = keys s)
      by (unfold_handlers; repeat case_match; reflexivity).
    rewrite E; auto.
  - unfold expire. repeat case_match; simpl; auto; set_solver.
  - auto.
Qed.

(** ** Over a whole run *)

Lemma run_app s es1 es2 : run s (es1 ++ es2)%list = run (run s es1) es2.
Proof. apply fold_left_app. Qed.

Lemma run_job s es a j :
  heap s !! a = Some j ->
  exists j', heap (run s es) !! a = Some j' /\ evolves j j'.
Proof.
  revert s j. induction es as [|e es IH]; intros s j Hh; simpl.
  - exists j. split; [exact Hh | apply evolves_refl].
  - destruct (step_job s e a j Hh) as (j1 & H1 & E1 & _).
    destruct (IH _ _ H1) as (j2 & H2 & E2).
    exists j2. split; [exact H2 | eapply evolves_trans; eauto].
Qed.

Lemma fresh_plain s a : fresh s a = true -> inherited a = false /\ heap s !! a = None.
Proof.
  unfold fresh. destruct (heap s !! a), (procs s !! a); try discriminate.
  intros H. apply andb_prop in H as [H _]. split; [|reflexivity].
  now destruct (inherited a).
Qed.

(** The ids of job objects are the ones [uuidv4] gave: none of them names
    a property of [Object.prototype], and each object carries its own. *)
Lemma reachable_plain s a j :
  reachable s -> heap s !! a = Some j -> inherited a = false /\ id j = a.
Proof.
  intros Hr. revert a j. induction Hr as [d|s e Hr IH]; intros a j Hh.
  - simpl in Hh. rewrite lookup_empty in Hh. discriminate.
  - destruct (heap s !! a) as [j0|] eqn:E0.
    + destruct (IH a j0 E0) as [Hin Hid]. split; [exact Hin|].
      destruct (step_job s e a j0 E0) as (j1 & H1 & (E1 & _) & _).
      congruence.
    + destruct (step_new s e a j (reachable_inv s Hr) E0 Hh)
        as (Hf & _ & tok & path & content & _ & ->).
      split; [exact (proj1 (fresh_plain s a Hf)) | reflexivity].
Qed.


Lemma run_evicted s es a j :
  heap s !! a = Some j -> a ∉ keys s -> a ∉ keys (run s es).
Proof.
  revert s j. induction es as [|e es IH]; intros s j Hh Hk; simpl; [exact Hk|].
  destruct (step_job s e a j Hh) as (j1 & H1 & _).
  apply (IH _ _ H1). intros Hin.
  destruct (step_keys s e a Hin) as [Hin'|Hf]; [now apply Hk|].
  apply fresh_plain in Hf as [_ Hf]. congruence.
Qed.

Lemma live_has_job s a :
  Inv s -> a ∈ keys s -> exists j p, heap s !! a = Some j /\ procs s !! a = Some p.
Proof.
  intros HI Hk. pose proof (HI a) as Hok. unfold view_ok, view in Hok.
  destruct (heap s !! a) as [j|], (procs s !! a) as [p|]; try contradiction; eauto.
  destruct Hok as (Hl & _). apply bool_decide_eq_false in Hl. contradiction.
Qed.

Lemma jobs_lookup_own s a j :
  heap s !! a = Some j -> a ∈ keys s -> jobs_lookup s a = Some (Own j).
Proof.
  intros Hh Hk. unfold jobs_lookup. now rewrite bool_decide_eq_true_2, Hh.
Qed.

Lemma jobs_lookup_gone s a :
  inherited a = false -> a ∉ keys s -> jobs_lookup s a = None.
Proof.
  intros Hin Hk. unfold jobs_lookup. now rewrite bool_decide_eq_false_2, Hin.
Qed.

(** X9. Whatever happens to the server, a job object stays where it is,
    keeps the id and the access token it was created with, and its file
    reference is either the one it had or [null]: no route and no
    callback rewrites a token or points a job at another file. *)
Theorem job_keeps_id_token_and_file (s : State) (es : list Event) (a : string) (j : Job) :
  heap s !! a = Some j ->
  exists j', heap (run s es) !! a = Some j' /\
    id j' = id j /\ accessToken j' = accessToken j /\
    (filePath j' = filePath j \/ filePath j' = None).
Proof.
  revert s j. induction es as [|e es IH]; intros s j Hh; simpl.
  - exists j. auto.
  - destruct (step_job s e a j Hh) as (j1 & H1 & (Hi1 & Ht1 & Hf1) & _).
    destruct (IH _ _ H1) as (j2 & H2 & Hi2 & Ht2 & Hf2).
    exists j2. split; [exact H2|]. split; [congruence|]. split; [congruence|].
    destruct Hf2 as [Hf2|Hf2]; [|now right].
    rewrite Hf2. exact Hf1.
Qed.


(** X11. From the [POST /start] that creates a job on, and for as long as
    its id is a key of [jobs], the gate lets a request on that id through
    exactly when its header is [Bearer] followed by the token of the 202
    response; any other header, or none, is answered 403, and once the id
    is evicted every request is answered 404. *)
Theorem gate_opens_for_the_issued_token_only
    (s : State) (a tok path content : string) (es : list Event) (h : option string) :
  fresh s a = true ->
  exists j',
    heap (run (step s (PostStart a tok (Some (path, content)))) es) !! a = Some j' /\
    accessToken j' = tok /\
    authorizeJob (run (step s (PostStart a tok (Some (path, content)))) es) a h
    = if bool_decide (a ∈ keys (run (step s (PostStart a tok (Some (path, content)))) es))
      then if bool_decide (h = Some ("Bearer " ++ tok)) then Next (Own j') else Forbidden
      else NotFound.
Proof.
  intros Hf. destruct (fresh_plain s a Hf) as [Hin _].
  set (s1 := step s (PostStart a tok (Some (path, content)))).
  assert (H1 : exists j1, heap s1 !! a = Some j1 /\ accessToken j1 = tok).
  { unfold s1; simpl. unfold post_start. rewrite Hf. simpl.
    rewrite lookup_insert_eq. eauto. }
  destruct H1 as (j1 & H1 & Ht).
  destruct (run_job s1 es a j1 H1) as (j' & H2 & _ & Ha & _).
  exists j'. split; [exact H2|]. split; [congruence|].
  pose proof (authorizeJob_on_plain_ids (run s1 es) a h Hin) as Hg.
  assert (Htok : accessToken j' = tok) by congruence.
  destruct (bool_decide (a ∈ keys (run s1 es))) eqn:Ek.
  - apply bool_decide_eq_true in Ek.
    rewrite (jobs_lookup_own _ _ _ H2 Ek) in Hg.
    destruct (authorizeJob (run s1 es) a h) as [| |t]; [discriminate| |].
    + destruct Hg as (job & E & Hne). injection E as <-. rewrite Htok in Hne.
      now rewrite bool_decide_eq_false_2.
    + destruct Hg as (job & -> & E & Hh). injection E as <-. rewrite Htok in Hh.
      now rewrite bool_decide_eq_true_2.
  - apply bool_decide_eq_false in Ek.
    rewrite (jobs_lookup_gone _ _ Hin Ek) in Hg.
    destruct (authorizeJob (run s1 es) a h) as [| |t]; [reflexivity| |].
    + destruct Hg as (job & E & _). discriminate.
    + destruct Hg as (job & _ & E & _). discriminate.
Qed.

(** X12. Eviction is for good. When the timer of a stored job fires, the
    upload it still refers to is deleted from the disk, and from then on,
    whatever else happens, every request on that id is answered 404
    whatever its credential, while the job object itself stays in reach of
    the functions that captured it. *)
Theorem evicted_job_is_gone_for_good
    (s : State) (a : string) (es : list Event) (h : option string) :
  reachable s -> a ∈ keys s ->
  authorizeJob (run (step s (Expire a)) es) a h = NotFound /\
  is_Some (heap (run (step s (Expire a)) es) !! a) /\
  (forall j path, heap s !! a = Some j -> filePath j = Some path -> path <> "" ->
     disk (step s (Expire a)) !! path = None).
Proof.
  intros Hr Hk.
  destruct (live_has_job s a (reachable_inv s Hr) Hk) as (j & p & Hh & Hp).
  destruct (reachable_plain s a j Hr Hh) as [Hin _].
  pose proof (jobs_lookup_own s a j Hh Hk) as Hl.
  assert (Hexp : heap (step s (Expire a)) !! a = Some j /\ a ∉ keys (step s (Expire a))).
  { simpl. unfold expire. rewrite Hp, Hl. simpl. split; [|set_solver].
    destruct (truthy_str (filePath j)); [|exact Hh].
    destruct (filePath j) as [path|]; [|exact Hh].
    destruct (unlink path (disk s)); exact Hh. }
  destruct Hexp as [Hh1 Hk1].
  split; [|split].
  - pose proof (authorizeJob_on_plain_ids (run (step s (Expire a)) es) a h Hin) as Hg.
    rewrite (jobs_lookup_gone _ _ Hin (run_evicted _ es a j Hh1 Hk1)) in Hg.
    destruct (authorizeJob _ a h) as [| |t]; [reflexivity| |].
    + destruct Hg as (job & E & _). discriminate.
    + destruct Hg as (job & _ & E & _). discriminate.
  - destruct (run_job _ es a j Hh1) as (j' & -> & _). eauto.
  - intros j0 path Hh0 Hfp Hne. assert (j0 = j) as -> by congruence.
    simpl. unfold expire. rewrite Hp, Hl, Hfp. simpl.
    destruct (String.eqb_spec path "") as [->|_]; [contradiction|]. simpl.
    unfold unlink. destruct (disk s !! path) eqn:Ed; simpl; [|exact Ed].
    apply lookup_delete_eq.
Qed.

(** ** The stages, seen from a client *)

Lemma load_books_Some d books data :
  load_books d books = Some data <->
  Forall2 (fun b x => load_book d b = Some x) books data.
Proof.
  revert data. induction books as [|b books IH]; intros data; simpl.
  - split.
    + intros E. injection E as <-. constructor.
    + intros H. inversion H. reflexivity.
  - split.
    + destruct (load_book d b) as [x|] eqn:Eb; [|discriminate].
      destruct (load_books d books) as [xs|]; [|discriminate].
      intros E. injection E as <-. constructor; [exact Eb|]. now apply IH.
    + intros H. inversion H as [|b' x books' xs Hb Hrest]; subst.
      rewrite Hb. apply IH in Hrest. now rewrite Hrest.
Qed.


(** A call of [getAnalysis] that is under way has its job object, in
    status [analysis_started]. *)
Lemma in_flight_job s a p :
  Inv s -> procs s !! a = Some p -> in_flight (analysis_pc p) = true ->
  exists j, heap s !! a = Some j /\ status j = AnalysisStarted /\
            truthy_str (transcript j) = true /\ analysis j = None.
Proof.
  intros HI Hp Hf. pose proof (HI a) as Hok. unfold view_ok, view in Hok.
  rewrite Hp in Hok. destruct (heap s !! a) as [j|]; [|contradiction].
  destruct Hok as (Hc & _).
  destruct (in_flight_started _ _ _ Hc Hf) as (H1 & H2 & H3 & _). eauto.
Qed.

(** The state of a stored job after [Transcript.generate] has rejected:
    the [catch] and the [finally] of [/start] have run. *)
Lemma generate_rejected_view s a p path client e j hist begun :
  view s a = (Some j, Some p, true, hist, begun) ->
  start p = AtGenerate path ->
  fst (Transcript.generate client Transcript.default_timeoutS path)
    = Transcript.Rejected e ->
  view (generate_settles a client s) a =
  (Some (with_error (Some "Transcription failed.") (with_status Errored j)),
   Some {| start := after_finally (Some j) true; analysis_pc := analysis_pc p |},
   true, Errored :: hist, begun).
Proof.
  intros Hv Hst Hgen. unfold generate_settles.
  rewrite procs_view, Hv. simpl. rewrite Hst, Hgen.
  rewrite start_finally_view, start_catch_view, Hv. reflexivity.
Qed.

(** X13. When [Transcript.generate] rejects for a job that is still
    stored, whatever the reason (a status of failure, the deadline, an
    error of the SDK), the job ends in status [error] with the fixed
    message ['Transcription failed.'], without a transcript and without a
    report, no analysis begins, and the [finally] goes on to delete the
    upload. *)
Theorem failed_transcription_ends_the_job
    (s : State) (a : string) (p : Proc) (path : string)
    (client : Transcript.RevAiApiClient) (e : Transcript.error) :
  reachable s -> a ∈ keys s ->
  procs s !! a = Some p -> start p = AtGenerate path ->
  fst (Transcript.generate client Transcript.default_timeoutS path)
    = Transcript.Rejected e ->
  exists j j',
    heap s !! a = Some j /\
    heap (generate_settles a client s) !! a = Some j' /\
    status j' = Errored /\ error j' = Some "Transcription failed." /\
    transcript j' = None /\ analysis j' = None /\
    analysis_begins a (out (generate_settles a client s)) = 0%nat /\
    option_map start (procs (generate_settles a client s) !! a)
      = Some (match filePath j with
              | Some f => if truthy_str (Some f) then AtUnlink f else Returned
              | None => Returned
              end).
Proof.
  intros Hr Hk Hp Hst Hgen.
  pose proof (reachable_inv s Hr a) as Hok. unfold view_ok in Hok.
  assert (Hlive : bool_decide (a ∈ keys s) = true) by now apply bool_decide_eq_true.
  destruct (view s a) as [[[[oj op] live] hist] begun] eqn:Hv.
  assert (op = Some p /\ live = true) as [-> ->].
  { unfold view in Hv. injection Hv as _ <- <- _ _. auto. }
  destruct oj as [j|]; [|contradiction].
  destruct Hok as (Hc & _ & _ & Hb).
  assert (Hj : status j = Transcribing /\ transcript j = None /\ analysis j = None /\
               analysis_pc p = NotCalled).
  { unfold consistent in Hc. rewrite Hst in Hc.
    destruct (status j); simpl in Hc; intuition. }
  destruct Hj as (Hs & Ht & Ha & Hpc). rewrite Hpc in Hb.
  pose proof (generate_rejected_view s a p path client e j hist begun Hv Hst Hgen) as Hv'.
  exists j, (with_error (Some "Transcription failed.") (with_status Errored j)).
  change (analysis_begins a (out (generate_settles a client s)))
    with (view (generate_settles a client s) a).2.
  rewrite !heap_view, procs_view, Hv', Hv. subst begun. simpl. repeat split; auto.
Qed.


(** X15. When every selected book is read, [getAnalysis] calls Gemini once
    for the job, with a client that holds the job's transcript and the
    books' titles and texts in the order of the selection, and the whole
    pool of credentials; the job object is not touched meanwhile. *)
Theorem loaded_books_reach_the_model_in_order
    (s : State) (a : string) (p : Proc) (books : list json)
    (data : list (option json * string)) :
  reachable s ->
  procs s !! a = Some p -> analysis_pc p = AtReadFiles books ->
  Forall2 (fun b x => load_book (disk s) b = Some x) books data ->
  exists j c,
    heap s !! a = Some j /\
    Gemini.transcript c = transcript j /\ Gemini.books c = data /\
    Gemini.keys c = Gemini.apiKeys /\
    out (read_settles a s) = CallGetResponse a c :: out s /\
    heap (read_settles a s) = heap s /\
    option_map analysis_pc (procs (read_settles a s) !! a) = Some (AtGetResponse c).
Proof.
  intros Hr Hp Hpc Hall.
  destruct (in_flight_job s a p (reachable_inv s Hr) Hp) as (j & Hh & Hs & Ht & Ha).
  { now rewrite Hpc. }
  apply load_books_Some in Hall.
  unfold read_settles. rewrite Hp, Hh, Hpc, Hall. simpl.
  exists j. eexists. split; [reflexivity|].
  unfold set_analysis_pc, upd_proc, emit; simpl.
  rewrite lookup_alter_eq, Hp. simpl. repeat split; reflexivity.
Qed.

(** X19. The cleanup on the failure path. When [Transcript.generate]
    rejects for a stored job whose upload is still on the disk, the
    [finally] of [/start] deletes that file, sets [filePath] to [null] and
    the handler returns; nothing is left unhandled, and the only thing
    logged for the job is its status [error]. *)
Theorem failed_transcription_cleans_up
    (s : State) (a : string) (p : Proc) (path : string)
    (client : Transcript.RevAiApiClient) (e : Transcript.error)
    (j : Job) (f text : string) :
  a ∈ keys s -> heap s !! a = Some j ->
  procs s !! a = Some p -> start p = AtGenerate path ->
  filePath j = Some f -> f <> "" -> disk s !! f = Some text ->
  fst (Transcript.generate client Transcript.default_timeoutS path)
    = Transcript.Rejected e ->
  disk (run s [GenerateSettles a client; UnlinkSettles a]) !! f = None /\
  option_map filePath (heap (run s [GenerateSettles a client; UnlinkSettles a]) !! a)
    = Some None /\
  option_map start (procs (run s [GenerateSettles a client; UnlinkSettles a]) !! a)
    = Some Returned /\
  out (run s [GenerateSettles a client; UnlinkSettles a]) = SetStatus a Errored :: out s.
Proof.
  intros Hk Hh Hp Hst Hf Hne Hd Hgen. simpl.
  assert (Hv : view s a = (Some j, Some p, true, status_history a (out s),
                           analysis_begins a (out s))).
  { unfold view. now rewrite Hh, Hp, bool_decide_eq_true_2. }
  pose proof (generate_rejected_view s a p path client e j _ _ Hv Hst Hgen) as Hv'.
  set (s1 := generate_settles a client s) in *.
  assert (Hs1 : disk s1 = disk s /\ out s1 = SetStatus a Errored :: out s).
  { unfold s1, generate_settles. rewrite Hp, Hst, Hgen.
    unfold start_catch. rewrite (jobs_lookup_own s a j Hh Hk).
    unfold start_finally. repeat case_match; auto. }
  destruct Hs1 as [Hd1 Ho1].
  assert (Hfin : after_finally (Some j) true = AtUnlink f).
  { unfold after_finally. rewrite Hf. simpl.
    destruct (String.eqb_spec f "") as [->|_]; [contradiction|reflexivity]. }
  rewrite Hfin in Hv'.
  destruct (unlink_settles_releases s1 a
              (with_error (Some "Transcription failed.") (with_status Errored j)) f text
              {| start := AtUnlink f; analysis_pc := analysis_pc p |})
    as (R1 & R2 & R3 & R4).
  - rewrite procs_view, Hv'. reflexivity.
  - reflexivity.
  - rewrite jobs_lookup_view, Hv'. reflexivity.
  - now rewrite Hd1.
  - repeat split; auto. now rewrite R4.
Qed.

(** X20. The transcript is kept only while it is needed. In every state
    the server reaches, a job in status [transcribing] or [finished] holds
    no transcript ([null]: not yet there, or cleared after the analysis); a
    job at rest in [transcribed] holds one but is not ready (the transcript
    is the empty string or no book is selected); a job in
    [analysis_started] holds a non-empty one. *)
Theorem transcript_is_kept_while_needed (s : State) (a : string) (j : Job) :
  reachable s -> heap s !! a = Some j ->
  match status j with
  | Transcribing | Finished => transcript j = None
  | Transcribed => (exists t, transcript j = Some t) /\ ready j = false
  | AnalysisStarted => exists t, transcript j = Some t /\ t <> ""
  | Errored => True
  end.
Proof.
  intros Hr Hh. pose proof (reachable_inv s Hr a) as Hok.
  unfold view_ok, view in Hok. rewrite Hh in Hok.
  destruct (procs s !! a) as [p|]; [|contradiction].
  destruct Hok as (Hc & _). unfold consistent in Hc. unfold ready.
  destruct (status j); try tauto.
  destruct Hc as (Ht & _). destruct (transcript j) as [t|]; [|discriminate].
  exists t. split; [reflexivity|]. intros ->. discriminate.
Qed.

(** X21. When [Transcript.generate] resolves for a job that is still
    stored, the text is stored as the job's transcript and the selection
    is left alone. If the job is then ready (the text is not empty and the
    selection is a non-empty array), its analysis begins in the same turn,
    on the books of that selection, and the [/start] handler waits for it
    before it cleans up; otherwise the job rests in [transcribed], nothing
    begins and the handler goes on to its cleanup. *)
Theorem transcript_is_stored_and_analysis_follows
    (s : State) (a : string) (p : Proc) (path : string)
    (client : Transcript.RevAiApiClient) (text : string) :
  reachable s -> a ∈ keys s ->
  procs s !! a = Some p -> start p = AtGenerate path ->
  fst (Transcript.generate client Transcript.default_timeoutS path)
    = Transcript.Resolved text ->
  exists j j' p',
    heap s !! a = Some j /\
    heap (generate_settles a client s) !! a = Some j' /\
    procs (generate_settles a client s) !! a = Some p' /\
    transcript j' = Some text /\ selectedBooks j' = selectedBooks j /\
    if ready j'
    then status j' = AnalysisStarted /\
         (exists books, selectedBooks j = JArr books /\
                        analysis_pc p' = AtReadFiles books) /\
         start p' = AtTryStart false /\
         analysis_begins a (out (generate_settles a client s)) = 1%nat
    else status j' = Transcribed /\ analysis_pc p' = NotCalled /\
         start p' = AtTryStart true /\
         analysis_begins a (out (generate_settles a client s)) = 0%nat.
Proof.
  intros Hr Hk Hp Hst Hgen.
  pose proof (reachable_inv s Hr a) as Hok. unfold view_ok in Hok.
  assert (Hlive : bool_decide (a ∈ keys s) = true) by now apply bool_decide_eq_true.
  destruct (view s a) as [[[[oj op] live] hist] begun] eqn:Hv.
  assert (op = Some p /\ live = true) as [-> ->].
  { unfold view in Hv. injection Hv as _ <- <- _ _. auto. }
  destruct oj as [j|]; [|contradiction].
  destruct Hok as (Hc & _ & _ & Hb).
  assert (Hpc : analysis_pc p = NotCalled).
  { unfold consistent in Hc. rewrite Hst in Hc.
    destruct (status j); simpl in Hc; intuition. }
  rewrite Hpc in Hb. subst begun.
  set (j1 := with_status Transcribed (with_transcript (Some text) j)).
  set (s1 := set_status a Transcribed (upd_job a (with_transcript (Some text)) s)).
  assert (Hv1 : view s1 a = (Some j1, Some p, true, Transcribed :: hist, 0%nat)).
  { unfold s1. autorewrite with views. rewrite Hv. reflexivity. }
  destruct (tryStartAnalysis_view s1 a j1 p _ _ Hv1) as [E1 E2].
  change (already_started (status j1)) with false in E2.
  change (truthy_str (transcript j1) && nonempty_array (selectedBooks j1))
    with (truthy_str (Some text) && nonempty_array (selectedBooks j)) in E2.
  change (selectedBooks j1) with (selectedBooks j) in E2.
  assert (Hgs : generate_settles a client s
                = set_start a (AtTryStart (negb (awaiting a (tryStartAnalysis a s1).1)))
                    (tryStartAnalysis a s1).1).
  { unfold generate_settles. rewrite Hp, Hst, Hgen, jobs_lookup_view, Hv. cbv zeta.
    simpl. fold s1. now rewrite E1. }
  change (analysis_begins a (out (generate_settles a client s)))
    with (view (generate_settles a client s) a).2.
  rewrite !heap_view, !procs_view, Hgs. unfold set_start. autorewrite with views.
  rewrite awaiting_view, E2, Hv. unfold ready.
  destruct (truthy_str (Some text) && nonempty_array (selectedBooks j)) eqn:E.
  - assert (Hb : exists books, selectedBooks j = JArr books).
    { apply andb_prop in E as [_ Eb].
      destruct (selectedBooks j) as [| | | |books|]; try discriminate. eauto. }
    destruct Hb as (books & Esb). rewrite Esb.
    eexists j, _, _. do 5 (split; [reflexivity|]).
    match goal with
    | |- if ?c then _ else _ =>
        change c with (truthy_str (Some text) && nonempty_array (selectedBooks j))
    end.
    rewrite E. simpl. eauto 10.
  - eexists j, _, _. do 5 (split; [reflexivity|]).
    match goal with
    | |- if ?c then _ else _ =>
        change c with (truthy_str (Some text) && nonempty_array (selectedBooks j))
    end.
    rewrite E. simpl. rewrite Hpc. auto.
Qed.

(** ** One transcription and one analysis call per job *)























(** ** The upload *)



(** ** Who answers *)





(** ** The properties above, at the scenarios *)

Lemma uploaded_is_live : "job-1" ∈ keys uploaded.
Proof. apply (bool_decide_unpack ("job-1" ∈ keys uploaded)). vm_compute. exact I. Qed.

(** X9 over a failed transcription and its cleanup. *)
Lemma job_keeps_id_token_and_file_witness :
  exists j',
    heap (run uploaded [GenerateSettles "job-1" failing_client; UnlinkSettles "job-1"])
      !! "job-1" = Some j' /\
    id j' = id job_1 /\ accessToken j' = accessToken job_1 /\
    (filePath j' = filePath job_1 \/ filePath j' = None).
Proof.
  exact (job_keeps_id_token_and_file uploaded
           [GenerateSettles "job-1" failing_client; UnlinkSettles "job-1"]
           "job-1" job_1 eq_refl).
Defined.


(** X11 for the first job of a server, before and after its eviction. *)
Lemma gate_opens_witness :
  (exists j',
     heap (run (step (init library) (PostStart "job-1" "secret" (Some ("uploads/a", "audio"))))
             [select_book_x]) !! "job-1" = Some j' /\
     accessToken j' = "secret" /\
     authorizeJob
       (run (step (init library) (PostStart "job-1" "secret" (Some ("uploads/a", "audio"))))
          [select_book_x]) "job-1" (Some "Bearer guess")
     = if bool_decide
            ("job-1" ∈ keys (run (step (init library)
                                    (PostStart "job-1" "secret" (Some ("uploads/a", "audio"))))
                               [select_book_x]))
       then if bool_decide (Some "Bearer guess" = Some ("Bearer " ++ "secret"))
            then Next (Own j') else Forbidden
       else NotFound).
Proof.
  exact (gate_opens_for_the_issued_token_only (init library) "job-1" "secret"
           "uploads/a" "audio" [select_book_x] (Some "Bearer guess") eq_refl).
Defined.

(** X12 for the job of [uploaded], with the right token and a new upload
    after the eviction. *)
Lemma evicted_job_witness :
  authorizeJob
    (run (step uploaded (Expire "job-1"))
       [PostStart "job-2" "other" (Some ("uploads/b", "audio"));
        GetStatus "job-1" (Some "Bearer secret")])
    "job-1" (Some "Bearer secret") = NotFound /\
  disk (step uploaded (Expire "job-1")) !! "uploads/a" = None.
Proof.
  destruct (evicted_job_is_gone_for_good uploaded "job-1"
              [PostStart "job-2" "other" (Some ("uploads/b", "audio"));
               GetStatus "job-1" (Some "Bearer secret")]
              (Some "Bearer secret") uploaded_reachable uploaded_is_live)
    as (H1 & _ & H3).
  split; [exact H1|]. apply (H3 job_1 "uploads/a" eq_refl eq_refl). discriminate.
Defined.

(** X13 for a provider that never finishes: the deadline of 900 seconds
    ends the job. *)
Lemma failed_transcription_witness :
  exists j j',
    heap uploaded !! "job-1" = Some j /\
    heap (generate_settles "job-1" never_ready uploaded) !! "job-1" = Some j' /\
    status j' = Errored /\ error j' = Some "Transcription failed." /\
    transcript j' = None /\ analysis j' = None /\
    analysis_begins "job-1" (out (generate_settles "job-1" never_ready uploaded)) = 0%nat /\
    option_map start (procs (generate_settles "job-1" never_ready uploaded) !! "job-1")
      = Some (match filePath j with
              | Some f => if truthy_str (Some f) then AtUnlink f else Returned
              | None => Returned
              end).
Proof.
  apply (failed_transcription_ends_the_job uploaded "job-1"
           {| start := AtGenerate "uploads/a"; analysis_pc := NotCalled |} "uploads/a"
           never_ready (Transcript.TimedOut "rev-1" 900)
           uploaded_reachable uploaded_is_live eq_refl eq_refl).
  vm_compute. reflexivity.
Defined.


(** X15 at the run [analysing]. *)
Lemma loaded_books_witness :
  exists j c,
    heap analysing !! "job-1" = Some j /\
    Gemini.transcript c = transcript j /\
    Gemini.books c = [(Some (JStr "Book X"), "the text of Book X")] /\
    Gemini.keys c = Gemini.apiKeys /\
    out (read_settles "job-1" analysing) = CallGetResponse "job-1" c :: out analysing /\
    heap (read_settles "job-1" analysing) = heap analysing /\
    option_map analysis_pc (procs (read_settles "job-1" analysing) !! "job-1")
    = Some (AtGetResponse c).
Proof.
  apply (loaded_books_reach_the_model_in_order analysing "job-1"
           {| start := AtTryStart false; analysis_pc := AtReadFiles [book_x] |}
           [book_x] [(Some (JStr "Book X"), "the text of Book X")]
           analysing_reachable eq_refl eq_refl).
  repeat constructor.
Defined.



(** X19 for a provider that reports [failed], with the upload in place. *)
Lemma failed_transcription_cleans_up_witness :
  disk (run uploaded [GenerateSettles "job-1" failing_client; UnlinkSettles "job-1"])
    !! "uploads/a" = None /\
  option_map filePath
    (heap (run uploaded [GenerateSettles "job-1" failing_client; UnlinkSettles "job-1"])
       !! "job-1") = Some None /\
  option_map start
    (procs (run uploaded [GenerateSettles "job-1" failing_client; UnlinkSettles "job-1"])
       !! "job-1") = Some Returned /\
  out (run uploaded [GenerateSettles "job-1" failing_client; UnlinkSettles "job-1"])
    = SetStatus "job-1" Errored :: out uploaded.
Proof.
  apply (failed_transcription_cleans_up uploaded "job-1"
           {| start := AtGenerate "uploads/a"; analysis_pc := NotCalled |} "uploads/a"
           failing_client (Transcript.EndedWithStatus "rev-1" "failed" "bad audio")
           job_1 "uploads/a" "audio" uploaded_is_live eq_refl eq_refl eq_refl eq_refl).
  - discriminate.
  - reflexivity.
  - vm_compute. reflexivity.
Defined.

(** X20 while the analysis is under way, and after it. *)
Lemma transcript_is_kept_witness :
  (exists t, transcript job_1_analysing = Some t /\ t <> "") /\
  transcript job_1_analysed = None.
Proof.
  split.
  - exact (transcript_is_kept_while_needed analysing "job-1" job_1_analysing
             analysing_reachable eq_refl).
  - exact (transcript_is_kept_while_needed analysed "job-1" job_1_analysed
             analysed_reachable eq_refl).
Defined.

Lemma selected_is_live : "job-1" ∈ keys (step uploaded select_book_x).
Proof.
  apply (bool_decide_unpack ("job-1" ∈ keys (step uploaded select_book_x))).
  vm_compute. exact I.
Qed.

(** X21 when the book is selected before the transcript arrives. *)
Lemma transcript_is_stored_witness :
  exists j j' p',
    heap (step uploaded select_book_x) !! "job-1" = Some j /\
    heap (generate_settles "job-1" (ready_client "hello") (step uploaded select_book_x))
      !! "job-1" = Some j' /\
    procs (generate_settles "job-1" (ready_client "hello") (step uploaded select_book_x))
      !! "job-1" = Some p' /\
    transcript j' = Some "hello" /\ selectedBooks j' = selectedBooks j /\
    if ready j'
    then status j' = AnalysisStarted /\
         (exists books, selectedBooks j = JArr books /\
                        analysis_pc p' = AtReadFiles books) /\
         start p' = AtTryStart false /\
         analysis_begins "job-1"
           (out (generate_settles "job-1" (ready_client "hello")
                   (step uploaded select_book_x))) = 1%nat
    else status j' = Transcribed /\ analysis_pc p' = NotCalled /\
         start p' = AtTryStart true /\
         analysis_begins "job-1"
           (out (generate_settles "job-1" (ready_client "hello")
                   (step uploaded select_book_x))) = 0%nat.
Proof.
  apply (transcript_is_stored_and_analysis_follows (step uploaded select_book_x) "job-1"
           {| start := AtGenerate "uploads/a"; analysis_pc := NotCalled |} "uploads/a"
           (ready_client "hello") "hello"
           (reachable_step uploaded select_book_x uploaded_reachable)
           selected_is_live eq_refl eq_refl).
  vm_compute. reflexivity.
Defined.
